(** * snntorch [_neurons/lif.py]: the LIF neuron base, its step function and
      the lazy state materializer, as a shallow embedding.

    Every Python object the module touches lives in an explicit store
    ([world]): tensors and autograd contexts are addressed by references,
    the class attribute [LIF.instances] is a field of the store.  Library
    calls of torch are modelled by small functions on that store; the
    functions of [lif.py] are written on top of them in an error-and-state
    monad, line by line.

    Numbers: tensor entries are rationals ([Q]).  The comparisons with zero
    and the products with 0 and 1 the module performs are exact on floats,
    so they agree with their rational counterparts on every finite input.
    The subtraction of the threshold is taken exact; what is proved about
    it is stated on the shifted tensor the subtraction returns. *)

From Stdlib Require Import QArith ZArith String Lia.
From stdpp Require Import base list.

Local Open Scope Q_scope.
Local Open Scope nat_scope.
Local Open Scope list_scope.

(** ** Store and monad *)

(** References into the store. *)
Abbreviation ref := nat.

(** Exceptions the module or torch can raise.  [Dangling] marks a reference
    that names no object (impossible in Python, possible in the model);
    [OutOfFragment] marks torch behaviour the model does not cover (ranks
    other than two in [argmax] and indexed assignment). *)
Inductive exn :=
| ValueError (msg : string)
| IndexError
| RuntimeError
| Dangling
| OutOfFragment.

Inductive result (A : Type) :=
| Ok (a : A)
| Err (e : exn).
Arguments Ok {A} a.
Arguments Err {A} e.

(** Nodes of the autograd graph: what [grad_fn] points to, each with the
    edges to the nodes of its inputs ([NoEdge] for an input that needs no
    gradient). *)
Inductive node :=
| NoEdge
| AccumulateGrad (leaf : ref)
| SubBackward0 (self_edge other_edge : node)
| MulBackward0 (self_ other : ref) (self_edge other_edge : node)
| CloneBackward0 (edge : node)
| HeavisideBackward (ctx : ref) (edge : node).

(** A float tensor: row-major [data] of the given [shape], the autograd
    metadata, and the [init_flag] attribute, present exactly on instances
    of the subclass [_SpikeTensor]. *)
Record tensor := mkTensor {
  shape : list nat;
  data : list Q;
  requires_grad : bool;
  grad_fn : option node;
  init_flag : option bool
}.

(** The [ctx] object of a [torch.autograd.Function]. *)
Record context := mkContext { saved_tensors : list ref }.

Record world := mkWorld {
  tensors : list tensor;
  ctxs : list context;
  instances : list nat;      (* LIF.instances, by object identity *)
  n_objects : nat            (* module objects created so far *)
}.

Definition M (A : Type) : Type := world -> result A * world.

Definition ret {A} (a : A) : M A := fun w => (Ok a, w).

Definition raise {A} (e : exn) : M A := fun w => (Err e, w).

Definition bind {A B} (m : M A) (f : A -> M B) : M B :=
  fun w => match m w with
           | (Ok a, w') => f a w'
           | (Err e, w') => (Err e, w')
           end.

Notation "x <- m ;; k" := (bind m (fun x => k))
  (at level 100, m at next level, right associativity).
Notation "m ;; k" := (bind m (fun _ => k))
  (at level 100, right associativity).

Definition set_tensors (ts : list tensor) (w : world) : world :=
  mkWorld ts (ctxs w) (instances w) (n_objects w).
Definition set_ctxs (cs : list context) (w : world) : world :=
  mkWorld (tensors w) cs (instances w) (n_objects w).
Definition set_instances (l : list nat) (w : world) : world :=
  mkWorld (tensors w) (ctxs w) l (n_objects w).

(** A new tensor object: it gets the next free reference. *)
Definition alloc (t : tensor) : M ref :=
  fun w => (Ok (length (tensors w)), set_tensors (tensors w ++ [t]) w).

Definition read (r : ref) : M tensor :=
  fun w => match tensors w !! r with
           | Some t => (Ok t, w)
           | None => (Err Dangling, w)
           end.

(** In-place change of the tensor object at [r]. *)
Definition write (r : ref) (t : tensor) : M unit :=
  fun w => match tensors w !! r with
           | Some _ => (Ok tt, set_tensors (<[r := t]> (tensors w)) w)
           | None => (Err Dangling, w)
           end.

Definition new_ctx : M ref :=
  fun w => (Ok (length (ctxs w)), set_ctxs (ctxs w ++ [mkContext []]) w).

Definition read_ctx (c : ref) : M context :=
  fun w => match ctxs w !! c with
           | Some x => (Ok x, w)
           | None => (Err Dangling, w)
           end.

Definition write_ctx (c : ref) (x : context) : M unit :=
  fun w => match ctxs w !! c with
           | Some _ => (Ok tt, set_ctxs (<[c := x]> (ctxs w)) w)
           | None => (Err Dangling, w)
           end.

(** [object.__new__]: a fresh module object, named by its creation rank. *)
Definition object_new : M nat :=
  fun w => (Ok (n_objects w),
            mkWorld (tensors w) (ctxs w) (instances w) (S (n_objects w))).

Definition lift {A} (r : result A) : M A := fun w => (r, w).

(** ** torch: shapes and broadcasting *)

Definition numel (s : list nat) : nat := fold_right Nat.mul 1 s.

(** Broadcast of two shapes, both given innermost dimension first. *)
Fixpoint broadcast_rev (s1 s2 : list nat) : option (list nat) :=
  match s1, s2 with
  | [], s => Some s
  | s, [] => Some s
  | d1 :: r1, d2 :: r2 =>
      match broadcast_rev r1 r2 with
      | None => None
      | Some r =>
          if d1 =? d2 then Some (d1 :: r)
          else if d1 =? 1 then Some (d2 :: r)
          else if d2 =? 1 then Some (d1 :: r)
          else None
      end
  end.

Definition broadcast_shapes (s1 s2 : list nat) : option (list nat) :=
  match broadcast_rev (reverse s1) (reverse s2) with
  | Some r => Some (reverse r)
  | None => None
  end.

(** [k] consecutive chunks of [n] entries. *)
Fixpoint chunks (n k : nat) (l : list Q) : list (list Q) :=
  match k with
  | 0 => []
  | S k' => take n l :: chunks n k' (drop n l)
  end.

(** Row-major data of shape [s] expanded to shape [s'] of the same rank,
    every dimension of [s] being that of [s'] or 1. *)
Fixpoint expand (s s' : list nat) (d : list Q) : list Q :=
  match s, s' with
  | d1 :: r1, d2 :: r2 =>
      if d1 =? d2
      then concat (map (expand r1 r2) (chunks (numel r1) d1 d))
      else concat (replicate d2 (expand r1 r2 d))
  | _, _ => d
  end.

Definition pad_shape (n : nat) (s : list nat) : list nat :=
  replicate (n - length s) 1 ++ s.

Definition broadcast_to (s' : list nat) (t : tensor) : list Q :=
  expand (pad_shape (length s') (shape t)) s' (data t).

(** Shape and data of an element-wise binary operation. *)
Definition binop (f : Q -> Q -> Q) (a b : tensor) : result (list nat * list Q) :=
  match broadcast_shapes (shape a) (shape b) with
  | None => Err RuntimeError
  | Some s => Ok (s, zip_with f (broadcast_to s a) (broadcast_to s b))
  end.

(** The edge autograd follows from a tensor: its [grad_fn], or the
    accumulator of a leaf that requires grad. *)
Definition grad_edge (r : ref) (t : tensor) : node :=
  match grad_fn t with
  | Some n => n
  | None => if requires_grad t then AccumulateGrad r else NoEdge
  end.

(** ** torch: the operations [lif.py] calls *)

(** [a - b] *)
Definition sub (a b : ref) : M ref :=
  ta <- read a ;;
  tb <- read b ;;
  sd <- lift (binop Qminus ta tb) ;;
  let rg := requires_grad ta || requires_grad tb in
  alloc (mkTensor sd.1 sd.2 rg
           (if rg then Some (SubBackward0 (grad_edge a ta) (grad_edge b tb))
            else None) None).

(** [a * b] *)
Definition mul (a b : ref) : M ref :=
  ta <- read a ;;
  tb <- read b ;;
  sd <- lift (binop Qmult ta tb) ;;
  let rg := requires_grad ta || requires_grad tb in
  alloc (mkTensor sd.1 sd.2 rg
           (if rg then Some (MulBackward0 a b (grad_edge a ta) (grad_edge b tb))
            else None) None).

Definition Qgtb (x y : Q) : bool :=
  match Qcompare x y with
  | Gt => true
  | _ => false
  end.

(** A boolean tensor, the value of a comparison. *)
Record btensor := mkBTensor { bshape : list nat; bdata : list bool }.

(** [a > c] for a Python number [c] *)
Definition gt (a : ref) (c : Q) : M btensor :=
  ta <- read a ;;
  ret (mkBTensor (shape ta) (map (fun x => Qgtb x c) (data ta))).

(** [b.float()] *)
Definition float_ (b : btensor) : M ref :=
  alloc (mkTensor (bshape b)
           (map (fun x : bool => if x then 1%Q else 0%Q) (bdata b))
           false None None).

(** [torch.zeros_like(a, requires_grad=rg)] *)
Definition zeros_like (a : ref) (rg : bool) : M ref :=
  ta <- read a ;;
  alloc (mkTensor (shape ta) (replicate (numel (shape ta)) 0%Q) rg None None).

(** [a.clone()] *)
Definition clone (a : ref) : M ref :=
  ta <- read a ;;
  alloc (mkTensor (shape ta) (data ta) (requires_grad ta)
           (if requires_grad ta then Some (CloneBackward0 (grad_edge a ta))
            else None) (init_flag ta)).

(** [a.detach()]: a new tensor on the same values, cut from the graph. *)
Definition detach (a : ref) : M ref :=
  ta <- read a ;;
  alloc (mkTensor (shape ta) (data ta) false None (init_flag ta)).

(** [a.detach_()]: the same, in place. *)
Definition detach_ (a : ref) : M unit :=
  ta <- read a ;;
  write a (mkTensor (shape ta) (data ta) false None (init_flag ta)).

(** [torch.as_tensor(x)] for a Python number *)
Definition as_tensor (x : Q) : M ref :=
  alloc (mkTensor [] [x] false None None).

(** [torch.Tensor(a)]: a plain tensor on the values of [a]. *)
Definition torch_Tensor (a : ref) : M ref :=
  ta <- read a ;;
  alloc (mkTensor (shape ta) (data ta) false None None).

(** [nn.Parameter(a)]: a leaf on the values of [a] that requires grad. *)
Definition nn_Parameter (a : ref) : M ref :=
  ta <- read a ;;
  alloc (mkTensor (shape ta) (data ta) true None None).

(** [torch.arange(n)] for a Python integer [n] *)
Definition arange (n : Z) : M (list nat) :=
  if (n <? 0)%Z then raise RuntimeError else ret (seq 0 (Z.to_nat n)).

(** [torch.argmax] of a list: the first position of the largest entry. *)
Fixpoint argmax_from (best_i : nat) (best : Q) (i : nat) (l : list Q) : nat :=
  match l with
  | [] => best_i
  | x :: l' =>
      if Qgtb x best then argmax_from i x (S i) l'
      else argmax_from best_i best (S i) l'
  end.

Definition argmax_list (l : list Q) : nat :=
  match l with
  | [] => 0
  | x :: l' => argmax_from 0 x 1 l'
  end.

(** [torch.argmax(a, dim=1)]: one index per row of a matrix.  A tensor of
    rank below two has no dimension 1, and an empty dimension cannot be
    reduced. *)
Definition argmax_dim1 (a : ref) : M (list nat) :=
  ta <- read a ;;
  match shape ta with
  | [] => raise IndexError
  | [_] => raise IndexError
  | [B; U] =>
      if U =? 0 then raise IndexError
      else ret (map argmax_list (chunks U B (data ta)))
  | _ => raise OutOfFragment
  end.

(** The index pairs named by two index vectors, broadcast against each
    other. *)
Definition broadcast_index (rows cols : list nat) : option (list (nat * nat)) :=
  if length rows =? length cols then Some (zip rows cols)
  else if length rows =? 1
       then Some (zip (replicate (length cols) (hd 0 rows)) cols)
  else if length cols =? 1
       then Some (zip rows (replicate (length rows) (hd 0 cols)))
  else None.

(** [a[rows, cols] = v] on a matrix, in place. *)
Definition index_put2 (a : ref) (rows cols : list nat) (v : Q) : M unit :=
  ta <- read a ;;
  if requires_grad ta
  then raise (match grad_fn ta with None => RuntimeError | Some _ => OutOfFragment end)
  else
  match shape ta with
  | [] => raise IndexError
  | [_] => raise IndexError
  | [B; U] =>
      match broadcast_index rows cols with
      | None => raise IndexError
      | Some ps =>
          if forallb (fun p : nat * nat => (p.1 <? B) && (p.2 <? U)) ps
          then write a (mkTensor (shape ta)
                          (fold_left (fun d (p : nat * nat) => <[p.1 * U + p.2 := v]> d)
                             ps (data ta))
                          (requires_grad ta) (grad_fn ta) (init_flag ta))
          else raise IndexError
      end
  | _ => raise OutOfFragment
  end.

(** [ctx.save_for_backward] on the tensors [ts] *)
Definition save_for_backward (ctx : ref) (ts : list ref) : M unit :=
  write_ctx ctx (mkContext ts).

(** A Python [for] loop over a tuple. *)
Fixpoint for_ {A} (l : list A) (body : A -> M unit) : M unit :=
  match l with
  | [] => ret tt
  | x :: l' => body x ;; for_ l' body
  end.

(** ** [class _SpikeTensor(torch.Tensor)] *)

(** [_SpikeTensor(init_flag=flag)]: [__new__] makes an empty tensor of the
    subclass, [__init__] stores the flag on it (its default is [True]; the
    module always passes [False]). *)
Definition _SpikeTensor (flag : bool) : M ref :=
  alloc (mkTensor [0] [] false None (Some flag)).

(** ** [class LIF(nn.Module)] *)

Module LIF.

(** A constructed neuron: its identity and the attributes [__init__]
    sets.  [beta] and [threshold] are tensors of the store. *)
Record obj := mkObj {
  self_id : nat;
  init_hidden : bool;
  inhibition : bool;
  reset_mechanism : string;
  output : bool;
  beta : ref;
  threshold : ref;
  spike_grad : ref -> M ref
}.

(** A Python number or a tensor, as [beta] and [threshold] may be. *)
Inductive number_or_tensor :=
| Number (x : Q)
| IsTensor (r : ref).

(** The arguments of [__init__]. *)
Record args := mkArgs {
  a_beta : number_or_tensor;
  a_threshold : number_or_tensor;
  a_spike_grad : option (ref -> M ref);
  a_init_hidden : bool;
  a_inhibition : bool;
  a_learn_beta : bool;
  a_learn_threshold : bool;
  a_reset_mechanism : string;
  a_output : bool
}.

(** The defaults of the signature: only [beta] is required. *)
Definition defaults (b : number_or_tensor) : args :=
  mkArgs b (Number 1%Q) None false false false false "subtract" false.

Module Heaviside.

Definition forward (ctx input_ : ref) : M ref :=
  b <- gt input_ 0%Q ;;
  out <- float_ b ;;
  save_for_backward ctx [out] ;;
  ret out.

Definition backward (ctx grad_output : ref) : M ref :=
  c <- read_ctx ctx ;;
  match saved_tensors c with
  | [out] =>
      grad <- mul grad_output out ;;
      ret grad
  | _ => raise (ValueError "unpack")
  end.

(** [Heaviside.apply]: torch runs [forward] on a new [ctx] and, when
    the input takes part in the graph, hangs [backward] on the
    output. *)
Definition apply (input_ : ref) : M ref :=
  ctx <- new_ctx ;;
  out <- forward ctx input_ ;;
  tin <- read input_ ;;
  (if requires_grad tin
   then tout <- read out ;;
        write out (mkTensor (shape tout) (data tout) true
                     (Some (HeavisideBackward ctx (grad_edge input_ tin)))
                     (init_flag tout))
   else ret tt) ;;
  ret out.

End Heaviside.

(** [LIF.instances.append(self)] *)
Definition instances_append (self : nat) : M unit :=
  fun w => (Ok tt, set_instances (instances w ++ [self]) w).

Definition __init__ (self : nat) (a : args) : M obj :=
  (* super(LIF, self).__init__() *)
  instances_append self ;;
  beta <- match a_beta a with
          | IsTensor r => ret r
          | Number x => as_tensor x
          end ;;
  beta <- (if a_learn_beta a then nn_Parameter beta
           else (* register_buffer *) ret beta) ;;
  threshold <- match a_threshold a with
               | IsTensor r => ret r
               | Number x => as_tensor x
               end ;;
  threshold <- (if a_learn_threshold a then nn_Parameter threshold
                else (* register_buffer *) ret threshold) ;;
  let spike_grad := match a_spike_grad a with
                    | None => Heaviside.apply
                    | Some f => f
                    end in
  if negb (String.eqb (a_reset_mechanism a) "subtract")
     && negb (String.eqb (a_reset_mechanism a) "zero")
  then raise (ValueError "reset_mechanism must be set to either 'subtract' or 'zero'.")
  else ret (mkObj self (a_init_hidden a) (a_inhibition a)
              (a_reset_mechanism a) (a_output a) beta threshold spike_grad).

(** The call [LIF(...)]: a new object, then [__init__] on it. *)
Definition new (a : args) : M obj :=
  self <- object_new ;;
  __init__ self a.

Definition fire (self : obj) (mem : ref) : M ref :=
  mem_shift <- sub mem (threshold self) ;;
  spk <- spike_grad self mem_shift ;;
  ret spk.

Definition fire_inhibition (self : obj) (batch_size : Z) (mem : ref) : M ref :=
  mem_shift <- sub mem (threshold self) ;;
  index <- argmax_dim1 mem_shift ;;
  spk_tmp <- spike_grad self mem_shift ;;
  mask_spk1 <- zeros_like spk_tmp false ;;
  rows <- arange batch_size ;;
  index_put2 mask_spk1 rows index 1%Q ;;
  spk <- mul spk_tmp mask_spk1 ;;
  ret spk.

Definition mem_reset (self : obj) (mem : ref) : M ref :=
  mem_shift <- sub mem (threshold self) ;;
  spk <- spike_grad self mem_shift ;;
  c <- clone spk ;;
  reset <- detach c ;;
  ret reset.

(** [cls.instances = []], at [cls = LIF], the one class of the module. *)
Definition init : M unit :=
  fun w => (Ok tt, set_instances [] w).

Definition init_leaky : M ref :=
  mem <- _SpikeTensor false ;;
  ret mem.

Definition init_synaptic : M (ref * ref) :=
  syn <- _SpikeTensor false ;;
  mem <- _SpikeTensor false ;;
  ret (syn, mem).

Definition init_stein : M (ref * ref) := init_synaptic.

Definition init_lapicque : M ref := init_leaky.

Definition init_alpha : M (ref * ref * ref) :=
  syn_exc <- _SpikeTensor false ;;
  syn_inh <- _SpikeTensor false ;;
  mem <- _SpikeTensor false ;;
  ret (syn_exc, syn_inh, mem).

Definition detach (states : list ref) : M unit :=
  for_ states (fun state => detach_ state).

(** The loop variable [state] is rebound to the new tensor; nothing is
    stored through it. *)
Definition zeros (states : list ref) : M unit :=
  for_ states (fun state =>
    state <- zeros_like state false ;;
    ret tt).

End LIF.

(** ** [_SpikeTorchConv] *)

(** What the function returns: one tensor, or the list [states]. *)
Inductive unpacked (X : Type) :=
| One (x : X)
| Many (xs : list X).
Arguments One {X} x.
Arguments Many {X} xs.

(** [type(args) is tuple]: the star-argument of a call always is. *)
Definition is_tuple (args : list ref) : bool := true.

(** The loop of [_SpikeTorchConv], [states] being the list built so far. *)
Fixpoint conv_loop (states : list ref) (args : list ref) (input_ : ref)
  : M (list ref) :=
  match args with
  | [] => ret states
  | arg :: rest =>
      arg <- torch_Tensor arg ;;
      arg <- zeros_like input_ true ;;
      conv_loop (states ++ [arg]) rest input_
  end.

Definition _SpikeTorchConv (args : list ref) (input_ : ref) : M (unpacked ref) :=
  if (length args =? 1) && negb (is_tuple args)
  then raise OutOfFragment
  else
    states <- conv_loop [] args input_ ;;
    if length states =? 1
    then match states with
         | s :: _ => ret (One s)
         | [] => raise IndexError
         end
    else ret (Many states).

(** ** The calls a client of the module can make *)

Inductive call :=
| Call_new (a : LIF.args)
| Call_fire (self : LIF.obj) (mem : ref)
| Call_fire_inhibition (self : LIF.obj) (batch_size : Z) (mem : ref)
| Call_mem_reset (self : LIF.obj) (mem : ref)
| Call_init
| Call_init_leaky
| Call_init_synaptic
| Call_init_stein
| Call_init_lapicque
| Call_init_alpha
| Call_detach (states : list ref)
| Call_zeros (states : list ref)
| Call_Heaviside_forward (ctx input_ : ref)
| Call_Heaviside_backward (ctx grad_output : ref)
| Call_Heaviside_apply (input_ : ref)
| Call_SpikeTensor (flag : bool)
| Call_SpikeTorchConv (args : list ref) (input_ : ref).

(** The store a call leaves behind, whether it returns or raises. *)
Definition run (c : call) (w : world) : world :=
  match c with
  | Call_new a => (LIF.new a w).2
  | Call_fire self mem => (LIF.fire self mem w).2
  | Call_fire_inhibition self n mem => (LIF.fire_inhibition self n mem w).2
  | Call_mem_reset self mem => (LIF.mem_reset self mem w).2
  | Call_init => (LIF.init w).2
  | Call_init_leaky => (LIF.init_leaky w).2
  | Call_init_synaptic => (LIF.init_synaptic w).2
  | Call_init_stein => (LIF.init_stein w).2
  | Call_init_lapicque => (LIF.init_lapicque w).2
  | Call_init_alpha => (LIF.init_alpha w).2
  | Call_detach states => (LIF.detach states w).2
  | Call_zeros states => (LIF.zeros states w).2
  | Call_Heaviside_forward ctx x => (LIF.Heaviside.forward ctx x w).2
  | Call_Heaviside_backward ctx g => (LIF.Heaviside.backward ctx g w).2
  | Call_Heaviside_apply x => (LIF.Heaviside.apply x w).2
  | Call_SpikeTensor flag => (_SpikeTensor flag w).2
  | Call_SpikeTorchConv args x => (_SpikeTorchConv args x w).2
  end.

(** The neuron a call is made on, if any, uses the default step function. *)
Definition default_step (c : call) : Prop :=
  match c with
  | Call_fire self _ | Call_fire_inhibition self _ _ | Call_mem_reset self _ =>
      LIF.spike_grad self = LIF.Heaviside.apply
  | _ => True
  end.

(** The leaves a gradient reaches when it is sent back along an edge. *)
Fixpoint leaves (n : node) : list ref :=
  match n with
  | NoEdge => []
  | AccumulateGrad leaf => [leaf]
  | SubBackward0 e1 e2 => leaves e1 ++ leaves e2
  | MulBackward0 _ _ e1 e2 => leaves e1 ++ leaves e2
  | CloneBackward0 e => leaves e
  | HeavisideBackward _ e => leaves e
  end.

(** The tensors behind what [_SpikeTorchConv] returned. *)
Definition deref (w : world) (u : unpacked ref) : unpacked (option tensor) :=
  match u with
  | One r => One (tensors w !! r)
  | Many rs => Many (map (fun r : ref => tensors w !! r) rs)
  end.

(** The tensor [torch.zeros_like(input_, requires_grad=True)] creates. *)
Definition zeros_of (tin : tensor) : tensor :=
  mkTensor (shape tin) (replicate (numel (shape tin)) 0%Q) true None None.

(** Entry [(i, j)] of a matrix with [U] columns. *)
Definition entry (U : nat) (d : list Q) (i j : nat) : Q :=
  nth (i * U + j) d 0%Q.

(** Row [i] of a matrix with [U] columns. *)
Definition row (U : nat) (d : list Q) (i : nat) : list Q :=
  take U (drop (i * U) d).

(** The forward rule of the step function on one entry. *)
Definition step (x : Q) : Q := if Qgtb x 0%Q then 1%Q else 0%Q.

(** A tensor whose data fill its shape. *)
Definition well_formed (t : tensor) : Prop :=
  length (data t) = numel (shape t).

(** ** Vocabulary of the statements *)

(** [hoare P m Q]: from a store that satisfies [P], the command [m] ends,
    with a value or an exception, in a store that satisfies [Q]. *)
Definition hoare {A} (P : world -> Prop) (m : M A)
    (Q : result A -> world -> Prop) : Prop :=
  forall w, P w -> Q (m w).1 (m w).2.

(** [extends w0 w]: every tensor and context of [w0] is still there in [w],
    unchanged, and so are the registry and the object counter. *)
Definition extends (w0 w : world) : Prop :=
  (forall r t, tensors w0 !! r = Some t -> tensors w !! r = Some t) /\
  (forall c x, ctxs w0 !! c = Some x -> ctxs w !! c = Some x) /\
  instances w = instances w0 /\
  n_objects w = n_objects w0.

(** Postconditions: the frame holds; the frame holds and the returned
    tensor (context) is one the call created. *)
Definition keeps (w0 : world) {A} : result A -> world -> Prop :=
  fun _ w => extends w0 w.

Definition keeps_fresh (w0 : world) : result ref -> world -> Prop :=
  fun r w => extends w0 w /\
             match r with
             | Ok a => length (tensors w0) <= a
             | Err _ => True
             end.

Definition keeps_fresh_ctx (w0 : world) : result ref -> world -> Prop :=
  fun r w => extends w0 w /\
             match r with
             | Ok c => length (ctxs w0) <= c
             | Err _ => True
             end.

(** A postcondition that asks nothing more than the frame of a raise. *)
Definition lax (w0 : world) {A} (Q : result A -> world -> Prop) : Prop :=
  forall e w, extends w0 w -> Q (Err e) w.

(** An argument [__init__] can turn into a tensor: a number, or a tensor of
    the store. *)
Definition usable (w : world) (x : LIF.number_or_tensor) : Prop :=
  match x with
  | LIF.Number _ => True
  | LIF.IsTensor r => is_Some (tensors w !! r)
  end.

(** [N] constructions in a row. *)
Definition construct_all (l : list LIF.args) (w : world) : world :=
  fold_left (fun w a => run (Call_new a) w) l w.

(** The registry holds exactly [l]. *)
Definition registry_is (l : list nat) (w : world) : Prop := instances w = l.

(** [torch.Tensor(arg)] leaves a plain copy of [arg] behind. *)
Definition washed (ta : tensor) : tensor :=
  mkTensor (shape ta) (data ta) false None None.

(** The tensors the loop creates, in order: per argument its plain copy,
    then the zero tensor [z]. *)
Fixpoint conv_allocs (w : world) (args : list ref) (z : tensor) : list tensor :=
  match args with
  | [] => []
  | arg :: rest =>
      match tensors w !! arg with
      | Some ta => washed ta :: z :: conv_allocs w rest z
      | None => []
      end
  end.

(** The references of the [k] zero tensors, the store holding [n] tensors
    when the loop starts. *)
Definition conv_refs (n k : nat) : list ref :=
  map (fun i => n + 2 * i + 1) (seq 0 k).

(** How [_SpikeTorchConv] hands [states] back. *)
Definition unpack (states : list ref) : unpacked ref :=
  match states with
  | [s] => One s
  | _ => Many states
  end.

(** The tensor [a - b] creates. *)
Definition sub_tensor (a b : ref) (ta tb : tensor) (s : list nat) (d : list Q)
  : tensor :=
  let rg := requires_grad ta || requires_grad tb in
  mkTensor s d rg
    (if rg then Some (SubBackward0 (grad_edge a ta) (grad_edge b tb)) else None)
    None.

(** The tensor [Heaviside.apply] creates from [tx], its context being [c]. *)
Definition spike_tensor (x c : ref) (tx : tensor) : tensor :=
  mkTensor (shape tx) (map step (data tx)) (requires_grad tx)
    (if requires_grad tx then Some (HeavisideBackward c (grad_edge x tx))
     else None)
    None.

(** The number of nonzero entries of a list. *)
Fixpoint nonzeros (l : list Q) : nat :=
  match l with
  | [] => 0
  | x :: l' => (if Qeq_bool x 0 then 0 else 1) + nonzeros l'
  end.

(** A dimension [a] broadcasts to [b]. *)
Definition fits (a b : nat) : Prop := a = b \/ a = 1.

(** The data of the mask: ones written at the index pairs [ps]. *)
Definition put_ones (U : nat) (ps : list (nat * nat)) (d : list Q) : list Q :=
  fold_left (fun d (p : nat * nat) => <[p.1 * U + p.2 := 1%Q]> d) ps d.


(** The state [_SpikeTensor(init_flag=False)] creates. *)
Definition placeholder : tensor := mkTensor [0] [] false None (Some false).



(** Every tensor of [w0] is still there, unchanged. *)
Definition tensors_kept (w0 w : world) : Prop :=
  forall r t, tensors w0 !! r = Some t -> tensors w !! r = Some t.

(** * Properties *)

(** ** The monad *)

Section Monad.
Context {A B : Type}.

Lemma bind_ok (m : M A) (f : A -> M B) w a w' :
  m w = (Ok a, w') -> bind m f w = f a w'.
Proof. unfold bind. intros ->. reflexivity. Qed.

Lemma bind_err (m : M A) (f : A -> M B) w e w' :
  m w = (Err e, w') -> bind m f w = (Err e, w').
Proof. unfold bind. intros ->. reflexivity. Qed.

Lemma bind_ret (a : A) (f : A -> M B) w : bind (ret a) f w = f a w.
Proof. reflexivity. Qed.

End Monad.

Lemma read_ok r w t : tensors w !! r = Some t -> read r w = (Ok t, w).
Proof. unfold read. intros ->. reflexivity. Qed.

Lemma read_ctx_ok c w x : ctxs w !! c = Some x -> read_ctx c w = (Ok x, w).
Proof. unfold read_ctx. intros ->. reflexivity. Qed.

Lemma lookup_snoc {X} (l : list X) (x : X) : (l ++ [x]) !! length l = Some x.
Proof. apply list_lookup_middle. reflexivity. Qed.

Lemma insert_snoc {X} (l : list X) (x y : X) :
  <[length l := y]> (l ++ [x]) = l ++ [y].
Proof.
  rewrite insert_app_r_alt by lia. rewrite Nat.sub_diag. reflexivity.
Qed.

(** ** Hoare triples over the store *)

Lemma hoare_ret {A} (P : world -> Prop) (a : A) Q :
  (forall w, P w -> Q (Ok a) w) -> hoare P (ret a) Q.
Proof. intros H w Hw. apply H, Hw. Qed.

Lemma hoare_raise {A} (P : world -> Prop) e (Q : result A -> world -> Prop) :
  (forall w, P w -> Q (Err e) w) -> hoare P (raise e) Q.
Proof. intros H w Hw. apply H, Hw. Qed.

Lemma hoare_lift {A} (P : world -> Prop) (r : result A) Q :
  (forall w, P w -> Q r w) -> hoare P (lift r) Q.
Proof. intros H w Hw. apply H, Hw. Qed.

Lemma hoare_bind {A B} (P : world -> Prop) (m : M A) (f : A -> M B) R Q :
  hoare P m R ->
  (forall e w, R (Err e) w -> Q (Err e) w) ->
  (forall a, hoare (R (Ok a)) (f a) Q) ->
  hoare P (bind m f) Q.
Proof.
  intros Hm He Hf w Hw. specialize (Hm w Hw). unfold bind.
  destruct (m w) as [[a|e] w']; simpl in Hm.
  - apply Hf, Hm.
  - simpl. apply He, Hm.
Qed.

Lemma hoare_conseq {A} (P P' : world -> Prop) (m : M A) (Q Q' : result A -> world -> Prop) :
  hoare P' m Q' ->
  (forall w, P w -> P' w) ->
  (forall r w, Q' r w -> Q r w) ->
  hoare P m Q.
Proof. intros H HP HQ w Hw. apply HQ, H, HP, Hw. Qed.

(** ** The frame: what a call may not touch *)

Lemma extends_refl w : extends w w.
Proof. repeat split; auto. Qed.

Lemma lookup_keeps_length {X} (l0 l : list X) :
  (forall i x, l0 !! i = Some x -> l !! i = Some x) -> length l0 <= length l.
Proof.
  intros H. destruct (decide (length l0 <= length l)) as [|Hn]; [assumption|].
  assert (Hlt : length l < length l0) by lia.
  destruct (lookup_lt_is_Some_2 l0 (length l)) as [x Hx]; [lia|].
  apply H in Hx. apply lookup_lt_Some in Hx. lia.
Qed.

Lemma extends_tensors_length w0 w :
  extends w0 w -> length (tensors w0) <= length (tensors w).
Proof. intros (H & _). apply lookup_keeps_length, H. Qed.

Lemma extends_ctxs_length w0 w :
  extends w0 w -> length (ctxs w0) <= length (ctxs w).
Proof. intros (_ & H & _). apply lookup_keeps_length, H. Qed.

Lemma lax_keeps w0 A : lax w0 (@keeps w0 A).
Proof. intros e w H. exact H. Qed.

Lemma lax_keeps_fresh w0 : lax w0 (keeps_fresh w0).
Proof. intros e w H. split; [exact H | exact I]. Qed.

Lemma lax_keeps_fresh_ctx w0 : lax w0 (keeps_fresh_ctx w0).
Proof. intros e w H. split; [exact H | exact I]. Qed.

Create HintDb frame.
#[local] Hint Resolve lax_keeps lax_keeps_fresh lax_keeps_fresh_ctx : frame.

Section Frame.
Variable w0 : world.

Lemma bind_keeps {A B} (m : M A) (f : A -> M B) Q :
  hoare (extends w0) m (keeps w0) ->
  lax w0 Q ->
  (forall a, hoare (extends w0) (f a) Q) ->
  hoare (extends w0) (bind m f) Q.
Proof.
  intros Hm HQ Hf. eapply hoare_bind; [exact Hm | |].
  - intros e w H. apply HQ, H.
  - intros a. apply Hf.
Qed.

Lemma bind_fresh {B} (m : M ref) (f : ref -> M B) Q :
  hoare (extends w0) m (keeps_fresh w0) ->
  lax w0 Q ->
  (forall a, length (tensors w0) <= a -> hoare (extends w0) (f a) Q) ->
  hoare (extends w0) (bind m f) Q.
Proof.
  intros Hm HQ Hf. eapply hoare_bind; [exact Hm | |].
  - intros e w [H _]. apply HQ, H.
  - intros a w [H Ha]. apply Hf; assumption.
Qed.

Lemma bind_fresh_ctx {B} (m : M ref) (f : ref -> M B) Q :
  hoare (extends w0) m (keeps_fresh_ctx w0) ->
  lax w0 Q ->
  (forall c, length (ctxs w0) <= c -> hoare (extends w0) (f c) Q) ->
  hoare (extends w0) (bind m f) Q.
Proof.
  intros Hm HQ Hf. eapply hoare_bind; [exact Hm | |].
  - intros e w [H _]. apply HQ, H.
  - intros a w [H Ha]. apply Hf; assumption.
Qed.

Lemma ret_keeps {A} (a : A) : hoare (extends w0) (ret a) (keeps w0).
Proof. apply hoare_ret. auto. Qed.

Lemma ret_keeps_fresh a :
  length (tensors w0) <= a -> hoare (extends w0) (ret a) (keeps_fresh w0).
Proof. intros Ha. apply hoare_ret. split; assumption. Qed.

Lemma raise_lax {A} e (Q : result A -> world -> Prop) :
  lax w0 Q -> hoare (extends w0) (raise e) Q.
Proof. intros HQ. apply hoare_raise. intros w H. apply HQ, H. Qed.

Lemma fresh_keeps (m : M ref) :
  hoare (extends w0) m (keeps_fresh w0) -> hoare (extends w0) m (keeps w0).
Proof. intros H w Hw. apply (H w Hw). Qed.

Lemma alloc_frame t : hoare (extends w0) (alloc t) (keeps_fresh w0).
Proof.
  intros w H. split.
  - destruct H as (Ht & Hc & Hi & Hn). repeat split; simpl; auto.
    intros r x Hr. apply lookup_app_l_Some, Ht, Hr.
  - simpl. apply extends_tensors_length, H.
Qed.

Lemma read_frame r : hoare (extends w0) (read r) (keeps w0).
Proof. intros w H. unfold read. destruct (tensors w !! r); exact H. Qed.

Lemma write_frame r t :
  length (tensors w0) <= r -> hoare (extends w0) (write r t) (keeps w0).
Proof.
  intros Hr w H. unfold write. destruct (tensors w !! r); [|exact H].
  destruct H as (Ht & Hc & Hi & Hn). repeat split; simpl; auto.
  intros r' x Hx. rewrite list_lookup_insert_ne; [apply Ht, Hx|].
  apply lookup_lt_Some in Hx. lia.
Qed.

Lemma new_ctx_frame : hoare (extends w0) new_ctx (keeps_fresh_ctx w0).
Proof.
  intros w H. split.
  - destruct H as (Ht & Hc & Hi & Hn). repeat split; simpl; auto.
    intros r x Hr. apply lookup_app_l_Some, Hc, Hr.
  - simpl. apply extends_ctxs_length, H.
Qed.

Lemma read_ctx_frame c : hoare (extends w0) (read_ctx c) (keeps w0).
Proof. intros w H. unfold read_ctx. destruct (ctxs w !! c); exact H. Qed.

Lemma write_ctx_frame c x :
  length (ctxs w0) <= c -> hoare (extends w0) (write_ctx c x) (keeps w0).
Proof.
  intros Hr w H. unfold write_ctx. destruct (ctxs w !! c); [|exact H].
  destruct H as (Ht & Hc & Hi & Hn). repeat split; simpl; auto.
  intros r' y Hy. rewrite list_lookup_insert_ne; [apply Hc, Hy|].
  apply lookup_lt_Some in Hy. lia.
Qed.

Lemma lift_frame {A} (r : result A) : hoare (extends w0) (lift r) (keeps w0).
Proof. apply hoare_lift. auto. Qed.

End Frame.

#[local] Hint Resolve ret_keeps ret_keeps_fresh raise_lax alloc_frame
  read_frame write_frame new_ctx_frame read_ctx_frame write_ctx_frame
  lift_frame : frame.

(** Frame proofs follow the code: a bind is split by the kind of its
    first command, a branch by cases, a leaf is closed by the lemmas
    above. *)
Ltac frame :=
  match goal with
  | |- hoare _ (bind _ _) _ =>
      first [ apply bind_fresh;
              [solve [eauto with frame] | auto with frame | intros ? ?; frame]
            | apply bind_fresh_ctx;
              [solve [eauto with frame] | auto with frame | intros ? ?; frame]
            | apply bind_keeps;
              [solve [frame] | auto with frame | intros ?; frame] ]
  | |- hoare _ (if ?b then _ else _) _ => destruct b; frame
  | |- hoare _ (match ?x with _ => _ end) _ => destruct x; frame
  | |- hoare _ _ (keeps _) =>
      solve [eauto with frame | apply fresh_keeps; eauto with frame]
  | |- hoare _ _ _ => solve [eauto with frame]
  | _ => idtac
  end.

Lemma sub_frame w0 a b : hoare (extends w0) (sub a b) (keeps_fresh w0).
Proof. unfold sub. frame. Qed.

Lemma mul_frame w0 a b : hoare (extends w0) (mul a b) (keeps_fresh w0).
Proof. unfold mul. frame. Qed.

Lemma gt_frame w0 a c : hoare (extends w0) (gt a c) (keeps w0).
Proof. unfold gt. frame. Qed.

Lemma float_frame w0 b : hoare (extends w0) (float_ b) (keeps_fresh w0).
Proof. unfold float_. frame. Qed.

Lemma zeros_like_frame w0 a rg :
  hoare (extends w0) (zeros_like a rg) (keeps_fresh w0).
Proof. unfold zeros_like. frame. Qed.

Lemma clone_frame w0 a : hoare (extends w0) (clone a) (keeps_fresh w0).
Proof. unfold clone. frame. Qed.

Lemma detach_frame w0 a : hoare (extends w0) (detach a) (keeps_fresh w0).
Proof. unfold detach. frame. Qed.

Lemma as_tensor_frame w0 x : hoare (extends w0) (as_tensor x) (keeps_fresh w0).
Proof. unfold as_tensor. frame. Qed.

Lemma torch_Tensor_frame w0 a :
  hoare (extends w0) (torch_Tensor a) (keeps_fresh w0).
Proof. unfold torch_Tensor. frame. Qed.

Lemma nn_Parameter_frame w0 a :
  hoare (extends w0) (nn_Parameter a) (keeps_fresh w0).
Proof. unfold nn_Parameter. frame. Qed.

Lemma arange_frame w0 n : hoare (extends w0) (arange n) (keeps w0).
Proof. unfold arange. frame. Qed.

Lemma argmax_dim1_frame w0 a : hoare (extends w0) (argmax_dim1 a) (keeps w0).
Proof. unfold argmax_dim1. frame. Qed.

Lemma index_put2_frame w0 a rows cols v :
  length (tensors w0) <= a ->
  hoare (extends w0) (index_put2 a rows cols v) (keeps w0).
Proof. intros Ha. unfold index_put2. frame. Qed.

Lemma save_for_backward_frame w0 c ts :
  length (ctxs w0) <= c ->
  hoare (extends w0) (save_for_backward c ts) (keeps w0).
Proof. intros Hc. unfold save_for_backward. frame. Qed.

Lemma SpikeTensor_frame w0 flag :
  hoare (extends w0) (_SpikeTensor flag) (keeps_fresh w0).
Proof. unfold _SpikeTensor. frame. Qed.

#[local] Hint Resolve sub_frame mul_frame gt_frame float_frame
  zeros_like_frame clone_frame detach_frame as_tensor_frame
  torch_Tensor_frame nn_Parameter_frame arange_frame argmax_dim1_frame
  index_put2_frame save_for_backward_frame SpikeTensor_frame : frame.

Lemma Heaviside_forward_frame w0 c x :
  length (ctxs w0) <= c ->
  hoare (extends w0) (LIF.Heaviside.forward c x) (keeps_fresh w0).
Proof. intros Hc. unfold LIF.Heaviside.forward. frame. Qed.

#[local] Hint Resolve Heaviside_forward_frame : frame.

Lemma Heaviside_apply_frame w0 x :
  hoare (extends w0) (LIF.Heaviside.apply x) (keeps_fresh w0).
Proof. unfold LIF.Heaviside.apply. frame. Qed.


#[local] Hint Resolve Heaviside_apply_frame : frame.

Lemma for_frame w0 {A} (l : list A) body :
  (forall x, hoare (extends w0) (body x) (keeps w0)) ->
  hoare (extends w0) (for_ l body) (keeps w0).
Proof.
  intros Hb. induction l as [|x l IH]; simpl.
  - apply ret_keeps.
  - apply bind_keeps; [apply Hb | auto with frame | intros _; exact IH].
Qed.

Lemma zeros_frame w0 states : hoare (extends w0) (LIF.zeros states) (keeps w0).
Proof. unfold LIF.zeros. apply for_frame. intros x. frame. Qed.

Lemma conv_loop_frame w0 args input_ states :
  hoare (extends w0) (conv_loop states args input_) (keeps w0).
Proof.
  revert states. induction args as [|arg rest IH]; intros states; simpl.
  - apply ret_keeps.
  - frame.
Qed.

#[local] Hint Resolve zeros_frame conv_loop_frame : frame.

Lemma SpikeTorchConv_frame w0 args input_ :
  hoare (extends w0) (_SpikeTorchConv args input_) (keeps w0).
Proof. unfold _SpikeTorchConv. frame. Qed.

(** The three neuron operations keep the frame as soon as the configured
    step function does. *)
Section NeuronFrame.
Variables (w0 : world) (self : LIF.obj).
Hypothesis spike_grad_frame :
  forall x, hoare (extends w0) (LIF.spike_grad self x) (keeps w0).

Lemma fire_frame mem : hoare (extends w0) (LIF.fire self mem) (keeps w0).
Proof. unfold LIF.fire. frame. Qed.

Lemma fire_inhibition_frame n mem :
  hoare (extends w0) (LIF.fire_inhibition self n mem) (keeps w0).
Proof. unfold LIF.fire_inhibition. frame. Qed.

Lemma mem_reset_frame mem :
  hoare (extends w0) (LIF.mem_reset self mem) (keeps w0).
Proof. unfold LIF.mem_reset. frame. Qed.

End NeuronFrame.

Lemma default_spike_grad_frame w0 self :
  LIF.spike_grad self = LIF.Heaviside.apply ->
  forall x, hoare (extends w0) (LIF.spike_grad self x) (keeps w0).
Proof. intros -> x. apply fresh_keeps, Heaviside_apply_frame. Qed.

(** ** Shapes and broadcasting *)

Lemma broadcast_rev_diag s : broadcast_rev s s = Some s.
Proof.
  induction s as [|d s IH]; [reflexivity|].
  simpl. rewrite IH, Nat.eqb_refl. reflexivity.
Qed.

Lemma broadcast_shapes_diag s : broadcast_shapes s s = Some s.
Proof.
  unfold broadcast_shapes. rewrite broadcast_rev_diag, reverse_involutive.
  reflexivity.
Qed.

Lemma concat_chunks n k d : length d = k * n -> concat (chunks n k d) = d.
Proof.
  revert d. induction k as [|k IH]; intros d Hd; simpl.
  - destruct d; [reflexivity | discriminate].
  - rewrite IH.
    + apply take_drop.
    + rewrite length_drop. simpl in Hd. lia.
Qed.

Lemma chunks_length n k d : length (chunks n k d) = k.
Proof.
  revert d. induction k as [|k IH]; intros d; simpl; [reflexivity|].
  rewrite IH. reflexivity.
Qed.

Lemma chunks_lookup n k d i :
  i < k -> chunks n k d !! i = Some (take n (drop (i * n) d)).
Proof.
  revert d i. induction k as [|k IH]; intros d i Hi; [lia|].
  destruct i as [|i]; simpl.
  - reflexivity.
  - rewrite IH by lia. rewrite drop_drop. reflexivity.
Qed.

Lemma chunks_Forall_length n k d :
  length d = k * n -> Forall (fun c => length c = n) (chunks n k d).
Proof.
  revert d. induction k as [|k IH]; intros d Hd; simpl; constructor.
  - rewrite length_take. simpl in Hd. lia.
  - apply IH. rewrite length_drop. simpl in Hd. lia.
Qed.

Lemma expand_diag s d : length d = numel s -> expand s s d = d.
Proof.
  revert d. induction s as [|n s IH]; intros d Hd; [reflexivity|].
  simpl. rewrite Nat.eqb_refl. simpl in Hd.
  rewrite <- (concat_chunks (numel s) n d) at 2 by lia.
  f_equal.
  assert (H := chunks_Forall_length (numel s) n d ltac:(lia)).
  induction H as [|c cs Hc _ IHcs]; simpl; [reflexivity|].
  rewrite IH by exact Hc. f_equal. exact IHcs.
Qed.

Lemma pad_shape_diag s : pad_shape (length s) s = s.
Proof. unfold pad_shape. rewrite Nat.sub_diag. reflexivity. Qed.

Lemma binop_same_shape f a b :
  shape a = shape b -> well_formed a -> well_formed b ->
  binop f a b = Ok (shape a, zip_with f (data a) (data b)).
Proof.
  intros Hs Ha Hb. unfold binop, broadcast_to. rewrite <- Hs.
  rewrite broadcast_shapes_diag, pad_shape_diag.
  rewrite !expand_diag; [reflexivity | |].
  - unfold well_formed in Hb. rewrite Hs. exact Hb.
  - exact Ha.
Qed.

(** ** The step function *)

Lemma Qgtb_spec x y : Qgtb x y = true <-> (y < x)%Q.
Proof.
  unfold Qgtb. rewrite (Qgt_alt x y).
  destruct (x ?= y)%Q; split; intros H; congruence.
Qed.

Lemma step_fires x : (0 < x)%Q -> step x = 1%Q.
Proof. intros H. unfold step. apply Qgtb_spec in H. rewrite H. reflexivity. Qed.

Lemma step_silent x : (x <= 0)%Q -> step x = 0%Q.
Proof.
  intros H. unfold step. destruct (Qgtb x 0) eqn:E; [|reflexivity].
  apply Qgtb_spec in E. exfalso. apply (Qlt_not_le _ _ E H).
Qed.

Lemma step_binary x : step x = 0%Q \/ step x = 1%Q.
Proof. unfold step. destruct (Qgtb x 0); auto. Qed.

(** What [forward] does on a store holding its two arguments. *)
Lemma Heaviside_forward_eq w ctx input_ tin c :
  tensors w !! input_ = Some tin ->
  ctxs w !! ctx = Some c ->
  LIF.Heaviside.forward ctx input_ w =
    (Ok (length (tensors w)),
     mkWorld (tensors w ++ [mkTensor (shape tin) (map step (data tin)) false None None])
             (<[ctx := mkContext [length (tensors w)]]> (ctxs w))
             (instances w) (n_objects w)).
Proof.
  intros Hin Hc. unfold LIF.Heaviside.forward, gt, float_, save_for_backward.
  rewrite (bind_ok _ _ w (mkBTensor (shape tin) (map (fun x => Qgtb x 0) (data tin))) w).
  2:{ rewrite (bind_ok _ _ w tin w) by (apply read_ok, Hin). reflexivity. }
  unfold bind, alloc, write_ctx, ret. simpl. rewrite Hc. simpl.
  rewrite map_map. reflexivity.
Qed.

(** The forward pass is the strict comparison with zero, entry by entry. *)
Lemma Heaviside_forward_entries w ctx input_ tin c i x :
  tensors w !! input_ = Some tin ->
  ctxs w !! ctx = Some c ->
  data tin !! i = Some x ->
  exists out w' tout,
    LIF.Heaviside.forward ctx input_ w = (Ok out, w') /\
    tensors w' !! out = Some tout /\
    shape tout = shape tin /\
    data tout !! i = Some (if Qlt_le_dec 0 x then 1%Q else 0%Q).
Proof.
  intros Hin Hc Hx. eexists _, _, _. split; [apply (Heaviside_forward_eq _ _ _ _ _ Hin Hc)|].
  simpl. split; [apply list_lookup_middle; reflexivity|]. split; [reflexivity|].
  simpl. rewrite list_lookup_fmap, Hx. simpl. f_equal.
  destruct (Qlt_le_dec 0 x); [apply step_fires | apply step_silent]; assumption.
Qed.

(** C1, as the code has it: on [[-1.0, 0.0, 0.5]] the forward pass of the
    default step function returns [[0.0, 0.0, 1.0]].  The entry equal to 0
    does not fire: the comparison is [input_ > 0], strict. *)
Theorem Heaviside_forward_at_zero :
  let w := mkWorld [mkTensor [3] [-1; 0; 1 # 2]%Q false None None]
                   [mkContext []] [] 0 in
  exists out w' tout,
    LIF.Heaviside.forward 0 0 w = (Ok out, w') /\
    tensors w' !! out = Some tout /\
    data tout = [0; 0; 1]%Q.
Proof.
  eexists _, _, _. split; [|split].
  - eapply Heaviside_forward_eq; reflexivity.
  - reflexivity.
  - reflexivity.
Qed.

(** ** The backward rule *)

Lemma mul_same_shape w a b ta tb :
  tensors w !! a = Some ta ->
  tensors w !! b = Some tb ->
  shape ta = shape tb -> well_formed ta -> well_formed tb ->
  exists rg gf,
    mul a b w =
      (Ok (length (tensors w)),
       set_tensors (tensors w ++
         [mkTensor (shape ta) (zip_with Qmult (data ta) (data tb)) rg gf None]) w).
Proof.
  intros Ha Hb Hs Hwa Hwb. unfold mul.
  rewrite (bind_ok _ _ w ta w) by (apply read_ok, Ha).
  rewrite (bind_ok _ _ w tb w) by (apply read_ok, Hb).
  unfold bind, lift. rewrite (binop_same_shape _ _ _ Hs Hwa Hwb).
  eexists _, _. reflexivity.
Qed.

Lemma Qmult_one_r (x : Q) : (x * 1)%Q = x.
Proof.
  destruct x as [n d]. unfold Qmult. simpl.
  rewrite Z.mul_1_r, Pos.mul_1_r. reflexivity.
Qed.

(** C5: [backward] returns the product of the upstream gradient and the
    cached forward output, entry by entry: where the output was 1 the
    gradient passes unchanged, where it was 0 the result is zero. *)
Theorem Heaviside_backward_gates w ctx grad_output out tg tout :
  ctxs w !! ctx = Some (mkContext [out]) ->
  tensors w !! grad_output = Some tg ->
  tensors w !! out = Some tout ->
  shape tg = shape tout -> well_formed tg -> well_formed tout ->
  exists grad w' tgrad,
    LIF.Heaviside.backward ctx grad_output w = (Ok grad, w') /\
    tensors w' !! grad = Some tgrad /\
    shape tgrad = shape tg /\
    data tgrad = zip_with Qmult (data tg) (data tout) /\
    forall i g o, data tg !! i = Some g -> data tout !! i = Some o ->
      (o = 1%Q -> data tgrad !! i = Some g) /\
      (o = 0%Q -> exists z, data tgrad !! i = Some z /\ (z == 0)%Q).
Proof.
  intros Hc Hg Ho Hs Hwg Hwo.
  destruct (mul_same_shape w grad_output out tg tout Hg Ho Hs Hwg Hwo)
    as (rg & gf & Hmul).
  eexists _, _, _. split; [|split; [|split; [|split]]].
  - unfold LIF.Heaviside.backward.
    rewrite (bind_ok _ _ w (mkContext [out]) w) by (apply read_ctx_ok, Hc).
    simpl. rewrite (bind_ok _ _ _ _ _ Hmul). reflexivity.
  - simpl. apply list_lookup_middle. reflexivity.
  - reflexivity.
  - reflexivity.
  - intros i g o Hgi Hoi. simpl.
    rewrite lookup_zip_with, Hgi, Hoi. simpl. split; intros ->.
    + rewrite Qmult_one_r. reflexivity.
    + eexists. split; [reflexivity|]. apply Qmult_0_r.
Qed.

(** C5 on the example of the specification: output [[0,1,1]] and upstream
    gradient [[3,4,5]] give [[0,4,5]]. *)
Lemma Heaviside_backward_gates_witness :
  let w := mkWorld [mkTensor [3] [0; 1; 1]%Q false None None;
                    mkTensor [3] [3; 4; 5]%Q false None None]
                   [mkContext [0]] [] 0 in
  exists grad w' tgrad,
    LIF.Heaviside.backward 0 1 w = (Ok grad, w') /\
    tensors w' !! grad = Some tgrad /\
    data tgrad = [0; 4; 5]%Q.
Proof.
  intros w.
  destruct (Heaviside_backward_gates w 0 1 0
              (mkTensor [3] [3; 4; 5]%Q false None None)
              (mkTensor [3] [0; 1; 1]%Q false None None)
              eq_refl eq_refl eq_refl eq_refl eq_refl eq_refl)
    as (grad & w' & tgrad & Hrun & Hlook & _ & Hdata & _).
  exists grad, w', tgrad. split; [exact Hrun|]. split; [exact Hlook|].
  rewrite Hdata. reflexivity.
Defined.

(** ** Construction and the registry *)

(** Whatever its outcome, [__init__] has put [self] at the end of the
    registry; nothing else of the registry moves. *)
Lemma init_registers self a w :
  instances (LIF.__init__ self a w).2 = instances w ++ [self] /\
  n_objects (LIF.__init__ self a w).2 = n_objects w.
Proof.
  unfold LIF.__init__. unfold bind at 1. simpl.
  set (w1 := set_instances (instances w ++ [self]) w).
  match goal with
  | |- context [ (?m w1).2 ] =>
      assert (H : hoare (extends w1) m (keeps w1)) by frame
  end.
  destruct (H w1 (extends_refl w1)) as (_ & _ & Hi & Hn).
  split; [exact Hi | exact Hn].
Qed.

Lemma new_registers a w :
  instances (LIF.new a w).2 = instances w ++ [n_objects w] /\
  n_objects (LIF.new a w).2 = S (n_objects w).
Proof.
  unfold LIF.new. unfold bind at 1. simpl.
  match goal with
  | |- context [ LIF.__init__ ?self a ?w1 ] =>
      destruct (init_registers self a w1) as [Hi Hn]
  end.
  split; [exact Hi | exact Hn].
Qed.

Lemma new_self_id a w o w' : LIF.new a w = (Ok o, w') -> LIF.self_id o = n_objects w.
Proof.
  unfold LIF.new, LIF.__init__, bind, object_new, LIF.instances_append, ret, raise.
  repeat match goal with
         | |- context [match ?x with _ => _ end] => destruct x eqn:?
         end; intros [= <- <-]; reflexivity || discriminate.
Qed.

Lemma construct_all_registry l w :
  instances (construct_all l w) = instances w ++ seq (n_objects w) (length l).
Proof.
  revert w. induction l as [|a l IH]; intros w; simpl.
  - rewrite app_nil_r. reflexivity.
  - unfold construct_all in IH. rewrite IH.
    destruct (new_registers a w) as [-> ->].
    rewrite <- app_assoc. reflexivity.
Qed.

Lemma to_tensor_returns x w :
  usable w x ->
  exists r w',
    match x with
    | LIF.IsTensor r => ret r
    | LIF.Number q => as_tensor q
    end w = (Ok r, w') /\
    is_Some (tensors w' !! r) /\
    (forall r0 t, tensors w !! r0 = Some t -> tensors w' !! r0 = Some t).
Proof.
  destruct x as [q|r]; simpl; intros H.
  - eexists _, _. split; [reflexivity|]. split.
    + eexists. apply lookup_snoc.
    + intros r0 t Hr. simpl. apply lookup_app_l_Some, Hr.
  - eexists _, _. split; [reflexivity|]. split; [exact H | auto].
Qed.

Lemma register_returns (learn : bool) r w :
  is_Some (tensors w !! r) ->
  exists r' w',
    (if learn then nn_Parameter r else ret r) w = (Ok r', w') /\
    (forall r0 t, tensors w !! r0 = Some t -> tensors w' !! r0 = Some t).
Proof.
  intros [t Ht]. destruct learn.
  - unfold nn_Parameter. rewrite (bind_ok _ _ w t w) by (apply read_ok, Ht).
    eexists _, _. split; [reflexivity|].
    intros r0 t0 Hr. simpl. apply lookup_app_l_Some, Hr.
  - eexists _, _. split; [reflexivity | auto].
Qed.

(** Any construction with a [reset_mechanism] other than the two allowed
    raises the [ValueError] and has registered the instance by then. *)
Lemma new_rejects_after_registering a w :
  LIF.a_reset_mechanism a <> "subtract"%string ->
  LIF.a_reset_mechanism a <> "zero"%string ->
  usable w (LIF.a_beta a) -> usable w (LIF.a_threshold a) ->
  exists msg w',
    LIF.new a w = (Err (ValueError msg), w') /\
    instances w' = instances w ++ [n_objects w].
Proof.
  intros Hs Hz Hb Ht.
  destruct (new_registers a w) as [Hreg _].
  destruct (LIF.new a w) as [r w'] eqn:E. simpl in Hreg.
  eexists _, w'. split; [|exact Hreg]. f_equal.
  revert E. unfold LIF.new, LIF.__init__.
  unfold bind at 1. unfold object_new at 1. unfold bind at 1.
  unfold LIF.instances_append at 1.
  match goal with |- context [bind _ _ ?w1] => set (w1' := w1) end.
  destruct (to_tensor_returns (LIF.a_beta a) w1' Hb) as (rb & wb & Eb & Hvb & Hkb).
  rewrite (bind_ok _ _ _ _ _ Eb).
  destruct (register_returns (LIF.a_learn_beta a) rb wb Hvb) as (rb' & wb' & Eb' & Hkb').
  rewrite (bind_ok _ _ _ _ _ Eb').
  assert (Ht' : usable wb' (LIF.a_threshold a)).
  { destruct (LIF.a_threshold a) as [q|rt]; [exact I|].
    destruct Ht as [t Ht]. exists t. apply Hkb', Hkb, Ht. }
  destruct (to_tensor_returns (LIF.a_threshold a) wb' Ht') as (rt & wt & Et & Hvt & _).
  rewrite (bind_ok _ _ _ _ _ Et).
  destruct (register_returns (LIF.a_learn_threshold a) rt wt Hvt) as (rt' & wt' & Et' & _).
  rewrite (bind_ok _ _ _ _ _ Et').
  apply String.eqb_neq in Hs, Hz. rewrite Hs, Hz. simpl.
  intros [= <- _]. reflexivity.
Qed.

(** C2, as the code has it: constructing a neuron with
    [reset_mechanism="invalid"] raises the [ValueError] of [__init__], and
    the registry, empty before, holds the rejected instance afterwards: the
    append is the first statement of [__init__], the check its last. *)
Theorem invalid_reset_mechanism_is_registered :
  let a := LIF.mkArgs (LIF.Number (1 # 2)%Q) (LIF.Number 1%Q) None
             false false false false "invalid" false in
  let w := mkWorld [] [] [] 0 in
  exists msg w',
    LIF.new a w = (Err (ValueError msg), w') /\
    instances w = [] /\
    instances w' = [0].
Proof.
  eexists _, _. split; [|split]; reflexivity.
Qed.

(** *** The registry as an invariant *)

Lemma bind_inv {A B} (P : world -> Prop) (m : M A) (f : A -> M B) :
  hoare P m (fun _ => P) ->
  (forall a, hoare P (f a) (fun _ => P)) ->
  hoare P (bind m f) (fun _ => P).
Proof.
  intros Hm Hf. eapply hoare_bind; [exact Hm | auto | exact Hf].
Qed.

Section Registry.
Variable l : list nat.
Let P := registry_is l.

Lemma ret_registry {A} (a : A) : hoare P (ret a) (fun _ => P).
Proof. apply hoare_ret. auto. Qed.

Lemma raise_registry {A} e : hoare P (@raise A e) (fun _ => P).
Proof. apply hoare_raise. auto. Qed.

Lemma lift_registry {A} (r : result A) : hoare P (lift r) (fun _ => P).
Proof. apply hoare_lift. auto. Qed.

Lemma alloc_registry t : hoare P (alloc t) (fun _ => P).
Proof. intros w H. exact H. Qed.

Lemma read_registry r : hoare P (read r) (fun _ => P).
Proof. intros w H. unfold read. destruct (tensors w !! r); exact H. Qed.

Lemma write_registry r t : hoare P (write r t) (fun _ => P).
Proof. intros w H. unfold write. destruct (tensors w !! r); exact H. Qed.

Lemma new_ctx_registry : hoare P new_ctx (fun _ => P).
Proof. intros w H. exact H. Qed.

Lemma read_ctx_registry c : hoare P (read_ctx c) (fun _ => P).
Proof. intros w H. unfold read_ctx. destruct (ctxs w !! c); exact H. Qed.

Lemma write_ctx_registry c x : hoare P (write_ctx c x) (fun _ => P).
Proof. intros w H. unfold write_ctx. destruct (ctxs w !! c); exact H. Qed.

End Registry.

Create HintDb registry.
#[local] Hint Resolve ret_registry raise_registry lift_registry alloc_registry
  read_registry write_registry new_ctx_registry read_ctx_registry
  write_ctx_registry : registry.

Ltac unfold_torch :=
  unfold sub, mul, gt, float_, zeros_like, clone, detach, detach_, as_tensor,
    torch_Tensor, nn_Parameter, arange, argmax_dim1, index_put2,
    save_for_backward, _SpikeTensor.

Ltac registry :=
  match goal with
  | |- hoare _ (bind _ _) _ => apply bind_inv; [registry | intros ?; registry]
  | |- hoare _ (if ?b then _ else _) _ => destruct b; registry
  | |- hoare _ (match ?x with _ => _ end) _ => destruct x; registry
  | |- hoare _ _ _ => solve [eauto with registry]
  | _ => idtac
  end.

Lemma for_registry l {A} (xs : list A) body :
  (forall x, hoare (registry_is l) (body x) (fun _ => registry_is l)) ->
  hoare (registry_is l) (for_ xs body) (fun _ => registry_is l).
Proof.
  intros Hb. induction xs as [|x xs IH]; simpl.
  - apply ret_registry.
  - apply bind_inv; [apply Hb | intros _; exact IH].
Qed.

Lemma conv_loop_registry l args input_ states :
  hoare (registry_is l) (conv_loop states args input_) (fun _ => registry_is l).
Proof.
  revert states. induction args as [|arg rest IH]; intros states; simpl.
  - apply ret_registry.
  - unfold_torch. registry.
Qed.

Lemma Heaviside_apply_registry l x :
  hoare (registry_is l) (LIF.Heaviside.apply x) (fun _ => registry_is l).
Proof.
  unfold LIF.Heaviside.apply, LIF.Heaviside.forward. unfold_torch. registry.
Qed.

#[local] Hint Resolve conv_loop_registry Heaviside_apply_registry : registry.

(** Calls other than construction and [init] leave the registry alone. *)
Lemma run_registry c w :
  default_step c ->
  instances (run c w) =
    match c with
    | Call_new _ => instances w ++ [n_objects w]
    | Call_init => []
    | _ => instances w
    end.
Proof.
  intros Hc.
  destruct c; simpl in *;
    try (apply new_registers);
    try reflexivity;
    try rewrite Hc;
    match goal with
    | |- instances (?m w).2 = _ =>
        assert (H : hoare (registry_is (instances w)) m
                      (fun _ => registry_is (instances w)));
        [ | exact (H w eq_refl) ]
    end.
  - unfold LIF.fire. rewrite Hc. unfold_torch. registry.
  - unfold LIF.fire_inhibition. rewrite Hc. unfold_torch. registry.
  - unfold LIF.mem_reset. rewrite Hc. unfold_torch. registry.
  - unfold LIF.detach. apply for_registry. intros x. unfold_torch. registry.
  - unfold LIF.zeros. apply for_registry. intros x. unfold_torch. registry.
  - unfold LIF.Heaviside.forward. unfold_torch. registry.
  - unfold LIF.Heaviside.backward. unfold_torch. registry.
  - apply Heaviside_apply_registry.
  - unfold _SpikeTorchConv. registry.
Qed.

(** C8: from an empty registry, [N] constructions leave exactly the [N]
    constructed objects in it, in construction order; a construction appends
    the object it builds; [init] empties the registry whatever it held; and
    of all calls only construction adds an entry and only [init] removes
    any. *)
Theorem registry_lifecycle (l : list LIF.args) (w : world) (c : call) :
  instances w = [] ->
  default_step c ->
  let w' := construct_all l w in
  instances w' = seq (n_objects w) (length l) /\
  length (instances w') = length l /\
  (forall a w1 o w2,
     LIF.new a w1 = (Ok o, w2) -> instances w2 = instances w1 ++ [LIF.self_id o]) /\
  instances (run Call_init w') = [] /\
  (forall w1,
     instances (run c w1) =
       match c with
       | Call_new _ => instances w1 ++ [n_objects w1]
       | Call_init => []
       | _ => instances w1
       end).
Proof.
  intros Hw Hc w'.
  assert (Hreg : instances w' = seq (n_objects w) (length l)).
  { unfold w'. rewrite construct_all_registry, Hw. reflexivity. }
  split; [exact Hreg|]. split; [rewrite Hreg; apply length_seq|].
  split; [|split].
  - intros a w1 o w2 Hnew. rewrite (new_self_id _ _ _ _ Hnew).
    destruct (new_registers a w1) as [Hi _]. rewrite Hnew in Hi. exact Hi.
  - reflexivity.
  - intros w1. apply run_registry, Hc.
Qed.

(** C8 on three constructions, the second of them rejected, followed by a
    winner-take-all call and by [init]. *)
Lemma registry_lifecycle_witness :
  let ok := LIF.defaults (LIF.Number (9 # 10)%Q) in
  let bad := LIF.mkArgs (LIF.Number (9 # 10)%Q) (LIF.Number 1%Q) None
               false false false false "invalid" false in
  let self := LIF.mkObj 0 false false "subtract" false 0 1 LIF.Heaviside.apply in
  let w := mkWorld [] [] [] 0 in
  let w' := construct_all [ok; bad; ok] w in
  instances w' = [0; 1; 2] /\
  instances (run Call_init w') = [] /\
  instances (run (Call_fire_inhibition self 2 0) w') = [0; 1; 2].
Proof.
  intros ok bad self w w'.
  destruct (registry_lifecycle [ok; bad; ok] w (Call_fire_inhibition self 2 0)
              eq_refl eq_refl) as (Hreg & _ & _ & Hinit & Hcall).
  split; [exact Hreg|]. split; [exact Hinit|].
  rewrite (Hcall w'). exact Hreg.
Defined.

(** ** The bulk utilities *)

Lemma zeros_returns states w :
  Forall (fun s : ref => is_Some (tensors w !! s)) states ->
  (LIF.zeros states w).1 = Ok tt.
Proof.
  unfold LIF.zeros. revert w.
  induction states as [|s states IH]; intros w Hv; [reflexivity|].
  apply Forall_cons in Hv as [[t Ht] Hv]. simpl.
  unfold bind at 1. unfold bind at 1. unfold zeros_like at 1.
  rewrite (bind_ok _ _ w t w) by (apply read_ok, Ht). simpl.
  apply IH. simpl. eapply Forall_impl; [exact Hv|].
  intros r [x Hx]. exists x. apply lookup_app_l_Some, Hx.
Qed.

(** C3: [zeros] returns, and every tensor of the store, the states it was
    given among them, holds afterwards exactly what it held before: the
    zero tensors are new objects nobody refers to. *)
Theorem zeros_leaves_states_unchanged (states : list ref) (w : world) :
  Forall (fun s : ref => is_Some (tensors w !! s)) states ->
  (LIF.zeros states w).1 = Ok tt /\
  (forall r t, tensors w !! r = Some t ->
               tensors (LIF.zeros states w).2 !! r = Some t) /\
  Forall (fun s : ref => tensors (LIF.zeros states w).2 !! s = tensors w !! s)
    states /\
  instances (LIF.zeros states w).2 = instances w.
Proof.
  intros Hv.
  destruct (zeros_frame w states w (extends_refl w)) as (Ht & _ & Hi & _).
  split; [apply zeros_returns, Hv|]. split; [exact Ht|]. split; [|exact Hi].
  eapply Forall_impl; [exact Hv|]. intros s [t Hs]. simpl.
  rewrite Hs. apply Ht, Hs.
Qed.

(** C3 on two states, one of them passed twice. *)
Lemma zeros_leaves_states_unchanged_witness :
  let mem := mkTensor [2] [3 # 2; -1]%Q false None None in
  let syn := mkTensor [1] [7]%Q true None None in
  let w := mkWorld [mem; syn] [] [] 0 in
  (LIF.zeros [0; 1; 0] w).1 = Ok tt /\
  tensors (LIF.zeros [0; 1; 0] w).2 !! 0 = Some mem /\
  tensors (LIF.zeros [0; 1; 0] w).2 !! 1 = Some syn.
Proof.
  intros mem syn w.
  assert (Hv : Forall (fun s : ref => is_Some (tensors w !! s)) [0; 1; 0]).
  { repeat constructor; eexists; reflexivity. }
  destruct (zeros_leaves_states_unchanged [0; 1; 0] w Hv) as (Hret & Ht & _).
  split; [exact Hret|]. split; apply Ht; reflexivity.
Defined.

(** ** The state materializer *)

Lemma set_tensors_id w : set_tensors (tensors w) w = w.
Proof. destruct w. reflexivity. Qed.

Lemma conv_refs_S n k : conv_refs n (S k) = (n + 1) :: conv_refs (n + 2) k.
Proof.
  unfold conv_refs. simpl. f_equal; [lia|].
  rewrite <- seq_shift, map_map. apply map_ext. intros i. lia.
Qed.

Lemma conv_refs_length n k : length (conv_refs n k) = k.
Proof. unfold conv_refs. rewrite length_map, length_seq. reflexivity. Qed.

Lemma conv_refs_lookup n k i s :
  conv_refs n k !! i = Some s <-> i < k /\ s = n + 2 * i + 1.
Proof.
  unfold conv_refs. rewrite list_lookup_fmap. split.
  - intros H. destruct (seq 0 k !! i) as [j|] eqn:E; [|discriminate].
    apply lookup_seq in E as [-> Hi]. injection H as <-. split; [exact Hi | lia].
  - intros [Hi ->]. rewrite lookup_seq_lt by exact Hi. reflexivity.
Qed.

Lemma conv_allocs_ext w1 w2 args z :
  Forall (fun a : ref => is_Some (tensors w1 !! a)) args ->
  (forall r t, tensors w1 !! r = Some t -> tensors w2 !! r = Some t) ->
  conv_allocs w2 args z = conv_allocs w1 args z.
Proof.
  intros Hv Hext. induction Hv as [|a args [t Ht] _ IH]; [reflexivity|].
  simpl. rewrite Ht, (Hext _ _ Ht), IH. reflexivity.
Qed.

Lemma conv_allocs_lookup w args z i :
  Forall (fun a : ref => is_Some (tensors w !! a)) args ->
  i < length args ->
  conv_allocs w args z !! (2 * i + 1) = Some z.
Proof.
  intros Hv. revert i. induction Hv as [|a args [t Ht] _ IH]; intros i Hi.
  - simpl in Hi. lia.
  - cbn [conv_allocs]. rewrite Ht. destruct i as [|i]; [reflexivity|].
    replace (2 * S i + 1) with (S (S (2 * i + 1))) by lia.
    change (conv_allocs w args z !! (2 * i + 1) = Some z).
    apply IH. simpl in Hi. lia.
Qed.

Lemma torch_Tensor_eq a w ta :
  tensors w !! a = Some ta ->
  torch_Tensor a w =
    (Ok (length (tensors w)), set_tensors (tensors w ++ [washed ta]) w).
Proof.
  intros Ha. unfold torch_Tensor.
  rewrite (bind_ok _ _ w ta w) by (apply read_ok, Ha). reflexivity.
Qed.

Lemma zeros_like_eq a rg w ta :
  tensors w !! a = Some ta ->
  zeros_like a rg w =
    (Ok (length (tensors w)),
     set_tensors (tensors w ++
       [mkTensor (shape ta) (replicate (numel (shape ta)) 0%Q) rg None None]) w).
Proof.
  intros Ha. unfold zeros_like.
  rewrite (bind_ok _ _ w ta w) by (apply read_ok, Ha). reflexivity.
Qed.

Lemma conv_loop_eq args : forall states input_ w tin,
  tensors w !! input_ = Some tin ->
  Forall (fun a : ref => is_Some (tensors w !! a)) args ->
  conv_loop states args input_ w =
    (Ok (states ++ conv_refs (length (tensors w)) (length args)),
     set_tensors (tensors w ++ conv_allocs w args (zeros_of tin)) w).
Proof.
  induction args as [|arg rest IH]; intros states input_ w tin Hin Hv.
  - simpl. unfold conv_refs. simpl. rewrite !app_nil_r, set_tensors_id.
    reflexivity.
  - apply Forall_cons in Hv as [[ta Hta] Hv]. simpl.
    rewrite (bind_ok _ _ _ _ _ (torch_Tensor_eq _ _ _ Hta)).
    set (w1 := set_tensors (tensors w ++ [washed ta]) w).
    assert (Hin1 : tensors w1 !! input_ = Some tin)
      by (apply lookup_app_l_Some, Hin).
    rewrite (bind_ok _ _ _ _ _ (zeros_like_eq _ true _ _ Hin1)).
    fold (zeros_of tin).
    set (w2 := set_tensors (tensors w1 ++ [zeros_of tin]) w1).
    assert (Hext : forall r t, tensors w !! r = Some t -> tensors w2 !! r = Some t).
    { intros r t Hr. simpl. do 2 apply lookup_app_l_Some. exact Hr. }
    rewrite (IH _ input_ w2 tin (Hext _ _ Hin)).
    2:{ eapply Forall_impl; [exact Hv|]. intros r [t Hr]. exists t. auto. }
    rewrite (conv_allocs_ext w w2 rest _ Hv Hext), Hta.
    rewrite conv_refs_S. simpl. rewrite !length_app. simpl.
    f_equal.
    + rewrite <- app_assoc. simpl.
      replace (length (tensors w) + 1 + 1) with (length (tensors w) + 2) by lia.
      reflexivity.
    + unfold set_tensors. simpl. rewrite <- !app_assoc. reflexivity.
Qed.

Lemma SpikeTorchConv_eq args input_ w tin :
  tensors w !! input_ = Some tin ->
  Forall (fun a : ref => is_Some (tensors w !! a)) args ->
  _SpikeTorchConv args input_ w =
    (Ok (unpack (conv_refs (length (tensors w)) (length args))),
     set_tensors (tensors w ++ conv_allocs w args (zeros_of tin)) w).
Proof.
  intros Hin Hv. unfold _SpikeTorchConv, is_tuple.
  rewrite andb_false_r.
  rewrite (bind_ok _ _ _ _ _ (conv_loop_eq args [] input_ w tin Hin Hv)).
  simpl. destruct (conv_refs _ _) as [|s [|s' l]]; reflexivity.
Qed.

Lemma conv_result_lookup args w tin i :
  Forall (fun a : ref => is_Some (tensors w !! a)) args ->
  i < length args ->
  (tensors w ++ conv_allocs w args (zeros_of tin))
    !! (length (tensors w) + 2 * i + 1) = Some (zeros_of tin).
Proof.
  intros Hv Hi. rewrite lookup_app_r by lia.
  replace (length (tensors w) + 2 * i + 1 - length (tensors w)) with (2 * i + 1)
    by lia.
  apply conv_allocs_lookup; assumption.
Qed.

(** C7: given at least one state, [_SpikeTorchConv] returns, and it created
    one tensor per state: each new in the store, all zeros in the shape of
    [input_], requiring grad; no two of them are the same object, so
    writing into one leaves the others as they are; they come in the order
    of the loop over the inputs; one state gives the tensor itself, several
    give the list. *)
Theorem SpikeTorchConv_materializes
    (args : list ref) (input_ : ref) (w : world) (tin : tensor) :
  args <> [] ->
  Forall (fun a : ref => is_Some (tensors w !! a)) args ->
  tensors w !! input_ = Some tin ->
  exists (states : list ref) (w' : world),
    _SpikeTorchConv args input_ w = (Ok (unpack states), w') /\
    length states = length args /\
    (length args = 1 -> exists s, states = [s] /\ unpack states = One s) /\
    (length args <> 1 -> unpack states = Many states) /\
    NoDup states /\
    (forall i s, states !! i = Some s ->
       length (tensors w) <= s /\
       exists z, tensors w' !! s = Some z /\
         shape z = shape tin /\
         data z = replicate (numel (shape tin)) 0%Q /\
         requires_grad z = true) /\
    (forall i j si sj, i < j ->
       states !! i = Some si -> states !! j = Some sj -> si < sj) /\
    (forall i j si sj t, i <> j ->
       states !! i = Some si -> states !! j = Some sj ->
       tensors (write si t w').2 !! sj = tensors w' !! sj) /\
    (forall r t, tensors w !! r = Some t -> tensors w' !! r = Some t).
Proof.
  intros Hne Hv Hin.
  exists (conv_refs (length (tensors w)) (length args)).
  eexists. split; [apply (SpikeTorchConv_eq _ _ _ _ Hin Hv)|].
  split; [apply conv_refs_length|].
  assert (Hz : forall i s,
    conv_refs (length (tensors w)) (length args) !! i = Some s ->
    (tensors w ++ conv_allocs w args (zeros_of tin)) !! s = Some (zeros_of tin)).
  { intros i s Hs. apply conv_refs_lookup in Hs as [Hi ->].
    apply conv_result_lookup; assumption. }
  split; [|split; [|split; [|split; [|split; [|split]]]]].
  - intros H1. rewrite H1. eexists. split; reflexivity.
  - intros H1. destruct args as [|a [|b args]]; [contradiction| |];
      simpl in *; [lia | reflexivity].
  - unfold conv_refs. apply NoDup_fmap_2; [|apply NoDup_seq].
    intros i j Hij. lia.
  - intros i s Hs. split.
    + apply conv_refs_lookup in Hs as [_ ->]. lia.
    + exists (zeros_of tin). split; [apply (Hz i s Hs)|]. repeat split.
  - intros i j si sj Hij Hi Hj.
    apply conv_refs_lookup in Hi as [_ ->].
    apply conv_refs_lookup in Hj as [_ ->]. lia.
  - intros i j si sj t Hij Hi Hj. unfold write.
    cbn [tensors set_tensors]. rewrite (Hz i si Hi). cbn [snd set_tensors tensors].
    apply list_lookup_insert_ne.
    apply conv_refs_lookup in Hi as [_ ->].
    apply conv_refs_lookup in Hj as [_ ->]. lia.
  - intros r t Hr. simpl. apply lookup_app_l_Some, Hr.
Qed.

(** C7 on two placeholders and a reference of shape [(4, 10)]. *)
Lemma SpikeTorchConv_materializes_witness :
  let placeholder := mkTensor [0] [] false None (Some false) in
  let x := mkTensor [4; 10] (replicate 40 (1 # 2)%Q) false None None in
  let w := mkWorld [placeholder; placeholder; x] [] [] 0 in
  exists states w',
    _SpikeTorchConv [0; 1] 2 w = (Ok (Many states), w') /\
    length states = 2 /\
    NoDup states /\
    forall i s, states !! i = Some s ->
      exists z, tensors w' !! s = Some z /\
        shape z = [4; 10] /\ data z = replicate 40 0%Q /\ requires_grad z = true.
Proof.
  intros placeholder x w.
  assert (Hv : Forall (fun a : ref => is_Some (tensors w !! a)) [0; 1]).
  { repeat constructor; eexists; reflexivity. }
  destruct (SpikeTorchConv_materializes [0; 1] 2 w x ltac:(discriminate) Hv eq_refl)
    as (states & w' & Hrun & Hlen & _ & Hmany & Hnd & Hz & _).
  exists states, w'. rewrite <- Hmany by (simpl; lia).
  split; [exact Hrun|]. split; [exact Hlen|]. split; [exact Hnd|].
  intros i s Hs. destruct (Hz i s Hs) as (_ & z & Hl & Hsh & Hd & Hrg).
  exists z. repeat split; assumption.
Defined.

Lemma map_replicate_Forall {X Y} (g : X -> Y) (y : Y) (l : list X) :
  Forall (fun x => g x = y) l -> map g l = replicate (length l) y.
Proof.
  induction 1 as [|x l Hx _ IH]; [reflexivity|].
  simpl. rewrite Hx, IH. reflexivity.
Qed.

(** C10: two calls with references of equal value and as many states
    return the same tensors, whatever the states are: all zeros in the
    shape of the reference, requiring grad. *)
Theorem SpikeTorchConv_ignores_states
    (args1 args2 : list ref) (input1 input2 : ref) (w1 w2 : world)
    (tin : tensor) :
  length args1 = length args2 ->
  Forall (fun a : ref => is_Some (tensors w1 !! a)) args1 ->
  Forall (fun a : ref => is_Some (tensors w2 !! a)) args2 ->
  tensors w1 !! input1 = Some tin ->
  tensors w2 !! input2 = Some tin ->
  exists u1 w1' u2 w2',
    _SpikeTorchConv args1 input1 w1 = (Ok u1, w1') /\
    _SpikeTorchConv args2 input2 w2 = (Ok u2, w2') /\
    deref w1' u1 = deref w2' u2 /\
    deref w1' u1 =
      match length args1 with
      | 1 => One (Some (zeros_of tin))
      | n => Many (replicate n (Some (zeros_of tin)))
      end.
Proof.
  intros Hlen Hv1 Hv2 Hin1 Hin2.
  assert (Hd : forall args input_ w,
    Forall (fun a : ref => is_Some (tensors w !! a)) args ->
    tensors w !! input_ = Some tin ->
    deref (set_tensors (tensors w ++ conv_allocs w args (zeros_of tin)) w)
          (unpack (conv_refs (length (tensors w)) (length args))) =
      match length args with
      | 1 => One (Some (zeros_of tin))
      | n => Many (replicate n (Some (zeros_of tin)))
      end).
  { intros args input_ w Hv Hin.
    assert (Hall : Forall (fun r : ref =>
        (tensors w ++ conv_allocs w args (zeros_of tin)) !! r = Some (zeros_of tin))
        (conv_refs (length (tensors w)) (length args))).
    { apply Forall_lookup. intros i s Hs.
      apply conv_refs_lookup in Hs as [Hi ->].
      apply conv_result_lookup; assumption. }
    pose proof (conv_refs_length (length (tensors w)) (length args)) as Hl.
    destruct (conv_refs _ _) as [|s [|s' l]] eqn:E.
    - rewrite <- Hl. reflexivity.
    - rewrite <- Hl. simpl. apply Forall_cons in Hall as [Hs _].
      simpl. rewrite Hs. reflexivity.
    - rewrite <- Hl. unfold unpack, deref. cbn [tensors set_tensors].
      rewrite (map_replicate_Forall _ _ _ Hall). reflexivity. }
  eexists _, _, _, _.
  split; [apply (SpikeTorchConv_eq _ _ _ _ Hin1 Hv1)|].
  split; [apply (SpikeTorchConv_eq _ _ _ _ Hin2 Hv2)|].
  rewrite (Hd _ _ _ Hv1 Hin1), (Hd _ _ _ Hv2 Hin2), Hlen.
  split; reflexivity.
Qed.

(** C10 on two placeholders against two tensors that hold data. *)
Lemma SpikeTorchConv_ignores_states_witness :
  let placeholder := mkTensor [0] [] false None (Some false) in
  let x := mkTensor [2; 2] [1; 2; 3; 4]%Q false None None in
  let mem := mkTensor [2; 2] [5; 6; 7; 8]%Q true None None in
  let syn := mkTensor [3] [9; 9; 9]%Q false None None in
  let w := mkWorld [placeholder; placeholder; x; mem; syn] [] [] 0 in
  exists u1 w1' u2 w2',
    _SpikeTorchConv [0; 1] 2 w = (Ok u1, w1') /\
    _SpikeTorchConv [3; 4] 2 w = (Ok u2, w2') /\
    deref w1' u1 = deref w2' u2.
Proof.
  intros placeholder x mem syn w.
  assert (Hv1 : Forall (fun a : ref => is_Some (tensors w !! a)) [0; 1]).
  { repeat constructor; eexists; reflexivity. }
  assert (Hv2 : Forall (fun a : ref => is_Some (tensors w !! a)) [3; 4]).
  { repeat constructor; eexists; reflexivity. }
  destruct (SpikeTorchConv_ignores_states [0; 1] [3; 4] 2 2 w w x
              eq_refl Hv1 Hv2 eq_refl eq_refl)
    as (u1 & w1' & u2 & w2' & H1 & H2 & Heq & _).
  exists u1, w1', u2, w2'. repeat split; assumption.
Defined.

(** ** Executing the neuron operations *)

Lemma sub_eq a b w ta tb s d :
  tensors w !! a = Some ta ->
  tensors w !! b = Some tb ->
  binop Qminus ta tb = Ok (s, d) ->
  sub a b w =
    (Ok (length (tensors w)),
     set_tensors (tensors w ++ [sub_tensor a b ta tb s d]) w).
Proof.
  intros Ha Hb Hop. unfold sub.
  rewrite (bind_ok _ _ w ta w) by (apply read_ok, Ha).
  rewrite (bind_ok _ _ w tb w) by (apply read_ok, Hb).
  unfold bind, lift. rewrite Hop. reflexivity.
Qed.

Lemma Heaviside_apply_eq x w tx :
  tensors w !! x = Some tx ->
  LIF.Heaviside.apply x w =
    (Ok (length (tensors w)),
     mkWorld (tensors w ++ [spike_tensor x (length (ctxs w)) tx])
             (ctxs w ++ [mkContext [length (tensors w)]])
             (instances w) (n_objects w)).
Proof.
  intros Hx. unfold LIF.Heaviside.apply.
  unfold bind at 1. unfold new_ctx at 1.
  set (w1 := set_ctxs (ctxs w ++ [mkContext []]) w).
  assert (Hf := Heaviside_forward_eq w1 (length (ctxs w)) x tx (mkContext []) Hx
                  (list_lookup_middle _ _ _ _ eq_refl)).
  rewrite (bind_ok _ _ _ _ _ Hf). clear Hf.
  cbn [tensors ctxs instances n_objects w1 set_ctxs].
  rewrite insert_snoc.
  match goal with |- bind _ _ ?w2 = _ => set (w2' := w2) end.
  assert (Hx2 : tensors w2' !! x = Some tx) by (apply lookup_app_l_Some, Hx).
  rewrite (bind_ok _ _ _ _ _ (read_ok _ _ _ Hx2)).
  unfold spike_tensor. destruct (requires_grad tx).
  - unfold bind, read, write, ret. cbn [tensors w2'].
    rewrite lookup_snoc.
    cbn [tensors set_tensors fst snd w2']. rewrite lookup_snoc.
    cbn [set_tensors tensors ctxs instances n_objects]. rewrite insert_snoc.
    reflexivity.
  - reflexivity.
Qed.

Lemma clone_eq a w ta :
  tensors w !! a = Some ta ->
  clone a w =
    (Ok (length (tensors w)),
     set_tensors
       (tensors w ++
        [mkTensor (shape ta) (data ta) (requires_grad ta)
           (if requires_grad ta then Some (CloneBackward0 (grad_edge a ta)) else None)
           (init_flag ta)]) w).
Proof.
  intros Ha. unfold clone.
  rewrite (bind_ok _ _ w ta w) by (apply read_ok, Ha). reflexivity.
Qed.

Lemma detach_eq a w ta :
  tensors w !! a = Some ta ->
  detach a w =
    (Ok (length (tensors w)),
     set_tensors
       (tensors w ++ [mkTensor (shape ta) (data ta) false None (init_flag ta)]) w).
Proof.
  intros Ha. unfold detach.
  rewrite (bind_ok _ _ w ta w) by (apply read_ok, Ha). reflexivity.
Qed.

Lemma clone_detach_eq a w ta :
  tensors w !! a = Some ta ->
  (c <- clone a ;; reset <- detach c ;; ret reset) w =
    (Ok (S (length (tensors w))),
     set_tensors
       (tensors w ++
        [mkTensor (shape ta) (data ta) (requires_grad ta)
           (if requires_grad ta then Some (CloneBackward0 (grad_edge a ta)) else None)
           (init_flag ta);
         mkTensor (shape ta) (data ta) false None (init_flag ta)]) w).
Proof.
  intros Ha.
  rewrite (bind_ok _ _ _ _ _ (clone_eq _ _ _ Ha)).
  match goal with |- bind _ _ ?w1 = _ => set (w1' := w1) end.
  assert (H1 : tensors w1' !! length (tensors w) = Some
    (mkTensor (shape ta) (data ta) (requires_grad ta)
       (if requires_grad ta then Some (CloneBackward0 (grad_edge a ta)) else None)
       (init_flag ta))) by apply lookup_snoc.
  rewrite (bind_ok _ _ _ _ _ (detach_eq _ _ _ H1)).
  unfold ret. cbn. rewrite length_app. cbn.
  rewrite Nat.add_1_r, <- app_assoc. reflexivity.
Qed.

(** [mem_reset] repeats [fire] and detaches a copy of what it returned,
    whatever the configured step function is. *)
Lemma mem_reset_after_fire self mem w spk w1 tspk :
  LIF.fire self mem w = (Ok spk, w1) ->
  tensors w1 !! spk = Some tspk ->
  LIF.mem_reset self mem w =
    (Ok (S (length (tensors w1))),
     set_tensors
       (tensors w1 ++
        [mkTensor (shape tspk) (data tspk) (requires_grad tspk)
           (if requires_grad tspk then Some (CloneBackward0 (grad_edge spk tspk))
            else None)
           (init_flag tspk);
         mkTensor (shape tspk) (data tspk) false None (init_flag tspk)]) w1).
Proof.
  unfold LIF.fire, LIF.mem_reset. intros Hfire Hspk.
  unfold bind at 1 in Hfire. unfold bind at 1.
  destruct (sub mem (LIF.threshold self) w) as [[ms|e] wa]; [|discriminate].
  unfold bind at 1 in Hfire. unfold bind at 1.
  destruct (LIF.spike_grad self ms wa) as [[s|e] wb]; [|discriminate].
  injection Hfire as -> ->.
  apply clone_detach_eq, Hspk.
Qed.

(** [fire] with the default step function, on a membrane the threshold
    broadcasts against. *)
Lemma fire_default_eq self mem w tm tthr s d :
  LIF.spike_grad self = LIF.Heaviside.apply ->
  tensors w !! mem = Some tm ->
  tensors w !! LIF.threshold self = Some tthr ->
  binop Qminus tm tthr = Ok (s, d) ->
  let shifted := sub_tensor mem (LIF.threshold self) tm tthr s d in
  LIF.fire self mem w =
    (Ok (S (length (tensors w))),
     mkWorld (tensors w ++
                [shifted;
                 spike_tensor (length (tensors w)) (length (ctxs w)) shifted])
             (ctxs w ++ [mkContext [S (length (tensors w))]])
             (instances w) (n_objects w)).
Proof.
  intros Hsg Hm Ht Hop shifted. unfold LIF.fire. rewrite Hsg.
  rewrite (bind_ok _ _ _ _ _ (sub_eq _ _ _ _ _ _ _ Hm Ht Hop)).
  fold shifted.
  set (w1 := set_tensors (tensors w ++ [shifted]) w).
  assert (H1 : tensors w1 !! length (tensors w) = Some shifted)
    by (apply list_lookup_middle; reflexivity).
  rewrite (bind_ok _ _ _ _ _ (Heaviside_apply_eq _ _ _ H1)).
  unfold ret. cbn [tensors ctxs instances n_objects w1 set_tensors].
  rewrite length_app, <- app_assoc. cbn. rewrite Nat.add_1_r. reflexivity.
Qed.

(** C6: on a membrane the threshold broadcasts against, [fire] and
    [mem_reset] both return; the reset tensor has the shape and the values
    of the spike tensor, the step function applied to membrane minus
    threshold; it does not require grad and has no [grad_fn], so no leaf is
    reached from it, while the spike tensor of [fire] does reach a learnable
    threshold. *)
Theorem mem_reset_is_detached_fire
    (self : LIF.obj) (mem : ref) (w : world) (tm tthr : tensor)
    (s : list nat) (d : list Q) :
  LIF.spike_grad self = LIF.Heaviside.apply ->
  tensors w !! mem = Some tm ->
  tensors w !! LIF.threshold self = Some tthr ->
  binop Qminus tm tthr = Ok (s, d) ->
  exists spk w1 tspk reset w2 treset,
    LIF.fire self mem w = (Ok spk, w1) /\
    tensors w1 !! spk = Some tspk /\
    LIF.mem_reset self mem w = (Ok reset, w2) /\
    tensors w2 !! reset = Some treset /\
    shape treset = shape tspk /\
    data treset = data tspk /\
    data tspk = map step d /\
    requires_grad treset = false /\
    grad_fn treset = None /\
    leaves (grad_edge reset treset) = [] /\
    (requires_grad tthr = true -> grad_fn tthr = None ->
     LIF.threshold self ∈ leaves (grad_edge spk tspk)).
Proof.
  intros Hsg Hm Ht Hop.
  pose proof (fire_default_eq self mem w tm tthr s d Hsg Hm Ht Hop) as Hfire.
  cbv zeta in Hfire.
  set (shifted := sub_tensor mem (LIF.threshold self) tm tthr s d) in *.
  set (tspk := spike_tensor (length (tensors w)) (length (ctxs w)) shifted) in *.
  match type of Hfire with _ = (_, ?w1) => set (w1' := w1) in * end.
  assert (Hspk : tensors w1' !! S (length (tensors w)) = Some tspk).
  { cbn [tensors w1']. rewrite lookup_app_r by lia.
    rewrite Nat.sub_succ_l, Nat.sub_diag by lia. reflexivity. }
  pose proof (mem_reset_after_fire _ _ _ _ _ _ Hfire Hspk) as Hreset.
  eexists _, _, _, _, _, _.
  split; [exact Hfire|]. split; [exact Hspk|]. split; [exact Hreset|].
  split.
  { cbn [tensors set_tensors].
    rewrite lookup_app_r by lia.
    rewrite Nat.sub_succ_l, Nat.sub_diag by lia. reflexivity. }
  repeat (split; [reflexivity|]).
  intros Hrg Hgf. unfold tspk, spike_tensor, shifted, sub_tensor, grad_edge.
  cbn. rewrite Hrg, Hgf, orb_true_r. cbn.
  apply elem_of_app. right. apply list_elem_of_singleton. reflexivity.
Qed.

(** C6 on a two-by-two membrane and a learnable scalar threshold. *)
Lemma mem_reset_is_detached_fire_witness :
  let mem := mkTensor [2; 2] [3 # 2; 1 # 2; 1; 2]%Q false None None in
  let thr := mkTensor [] [1]%Q true None None in
  let w := mkWorld [mem; thr] [] [] 0 in
  let self := LIF.mkObj 0 false false "subtract" false 1 1 LIF.Heaviside.apply in
  exists reset w2 treset,
    LIF.mem_reset self 0 w = (Ok reset, w2) /\
    tensors w2 !! reset = Some treset /\
    data treset = [1; 0; 0; 1]%Q /\
    requires_grad treset = false /\
    leaves (grad_edge reset treset) = [].
Proof.
  intros mem thr w self.
  destruct (mem_reset_is_detached_fire self 0 w mem thr [2; 2]
              [(3 # 2) - 1; (1 # 2) - 1; 1 - 1; 2 - 1]%Q
              eq_refl eq_refl eq_refl eq_refl)
    as (spk & w1 & tspk & reset & w2 & treset & _ & _ & Hrun & Hl & _ & Hd & Hs
        & Hrg & _ & Hlv & _).
  exists reset, w2, treset. split; [exact Hrun|]. split; [exact Hl|].
  split; [rewrite Hd, Hs; reflexivity|]. split; [exact Hrg | exact Hlv].
Defined.

(** C9: with the default step function, [fire], [fire_inhibition] and
    [mem_reset] leave every tensor of the store as it was, the membrane
    they are given and the neuron's [beta] and [threshold] among them, and
    the contexts, the registry and the objects as well; what they add to
    the store is new. *)
Theorem neuron_operations_frame
    (self : LIF.obj) (batch_size : Z) (mem : ref) (w w' : world) :
  LIF.spike_grad self = LIF.Heaviside.apply ->
  w' = (LIF.fire self mem w).2 \/
  w' = (LIF.fire_inhibition self batch_size mem w).2 \/
  w' = (LIF.mem_reset self mem w).2 ->
  (forall r t, tensors w !! r = Some t -> tensors w' !! r = Some t) /\
  (forall r, r ∈ [mem; LIF.beta self; LIF.threshold self] ->
     is_Some (tensors w !! r) -> tensors w' !! r = tensors w !! r) /\
  (forall c x, ctxs w !! c = Some x -> ctxs w' !! c = Some x) /\
  instances w' = instances w /\
  n_objects w' = n_objects w.
Proof.
  intros Hsg Hw'.
  assert (Hext : extends w w').
  { pose proof (default_spike_grad_frame w self Hsg) as Hf.
    destruct Hw' as [-> | [-> | ->]].
    - exact (fire_frame w self Hf mem w (extends_refl w)).
    - exact (fire_inhibition_frame w self Hf batch_size mem w (extends_refl w)).
    - exact (mem_reset_frame w self Hf mem w (extends_refl w)). }
  destruct Hext as (Ht & Hc & Hi & Hn).
  split; [exact Ht|]. split; [|split; [exact Hc|split; [exact Hi | exact Hn]]].
  intros r _ [t Hr]. rewrite Hr. apply Ht, Hr.
Qed.

(** C9 on a winner-take-all call over a two-by-three membrane. *)
Lemma neuron_operations_frame_witness :
  let mem := mkTensor [2; 3] [1 # 10; 9 # 10; -(2 # 10); -1; -1; -1]%Q
               false None None in
  let beta := mkTensor [] [9 # 10]%Q false None None in
  let thr := mkTensor [] [0]%Q true None None in
  let w := mkWorld [mem; beta; thr] [] [7] 8 in
  let self := LIF.mkObj 7 false true "subtract" false 1 2 LIF.Heaviside.apply in
  let w' := (LIF.fire_inhibition self 2 0 w).2 in
  tensors w' !! 0 = Some mem /\
  tensors w' !! 1 = Some beta /\
  tensors w' !! 2 = Some thr /\
  instances w' = [7].
Proof.
  intros mem beta thr w self w'.
  destruct (neuron_operations_frame self 2 0 w w' eq_refl (or_intror (or_introl eq_refl)))
    as (Ht & _ & _ & Hi & _).
  split; [apply Ht; reflexivity|]. split; [apply Ht; reflexivity|].
  split; [apply Ht; reflexivity|]. exact Hi.
Defined.

(** ** [argmax]: the first position of the largest entry *)

Lemma Qgtb_false x y : Qgtb x y = false -> (x <= y)%Q.
Proof.
  intros H. apply Qnot_lt_le. intros Hlt. apply Qgtb_spec in Hlt. congruence.
Qed.

Lemma argmax_from_spec l : forall (pre : list Q) bi b,
  pre !! bi = Some b ->
  (forall j x, pre !! j = Some x -> (x <= b)%Q) ->
  (forall j x, j < bi -> pre !! j = Some x -> (x < b)%Q) ->
  exists m,
    (pre ++ l) !! argmax_from bi b (length pre) l = Some m /\
    (forall j x, (pre ++ l) !! j = Some x -> (x <= m)%Q) /\
    (forall j x, j < argmax_from bi b (length pre) l ->
                 (pre ++ l) !! j = Some x -> (x < m)%Q).
Proof.
  induction l as [|x l IH]; intros pre bi b Hb Hmax Hfirst.
  - simpl. rewrite app_nil_r. exists b. auto.
  - simpl. replace (pre ++ x :: l) with ((pre ++ [x]) ++ l)
      by (rewrite <- app_assoc; reflexivity).
    replace (S (length pre)) with (length (pre ++ [x]))
      by (rewrite length_app; simpl; lia).
    destruct (Qgtb x b) eqn:E.
    + apply Qgtb_spec in E. apply IH.
      * apply lookup_snoc.
      * intros j y Hj. apply lookup_app_Some in Hj as [Hj | [_ Hj]].
        -- apply Qlt_le_weak. eapply Qle_lt_trans; [eapply Hmax, Hj | exact E].
        -- apply list_lookup_singleton_Some in Hj as [_ <-]. apply Qle_refl.
      * intros j y Hlt Hj. rewrite lookup_app_l in Hj by exact Hlt.
        eapply Qle_lt_trans; [eapply Hmax, Hj | exact E].
    + apply Qgtb_false in E. apply IH.
      * apply lookup_app_l_Some, Hb.
      * intros j y Hj. apply lookup_app_Some in Hj as [Hj | [_ Hj]].
        -- eapply Hmax, Hj.
        -- apply list_lookup_singleton_Some in Hj as [_ <-]. exact E.
      * intros j y Hlt Hj. apply lookup_lt_Some in Hb.
        rewrite lookup_app_l in Hj by lia. eapply Hfirst; eassumption.
Qed.

Lemma argmax_list_spec l :
  l <> [] ->
  exists m,
    l !! argmax_list l = Some m /\
    (forall j x, l !! j = Some x -> (x <= m)%Q) /\
    (forall j x, j < argmax_list l -> l !! j = Some x -> (x < m)%Q).
Proof.
  destruct l as [|x l]; [contradiction|]. intros _.
  apply (argmax_from_spec l [x] 0 x).
  - reflexivity.
  - intros j y Hj. apply list_lookup_singleton_Some in Hj as [_ <-]. apply Qle_refl.
  - intros j y Hlt. lia.
Qed.

Lemma argmax_list_bound l U : length l <= U -> 0 < U -> argmax_list l < U.
Proof.
  intros Hl HU. destruct l as [|x l]; [exact HU|].
  destruct (argmax_list_spec (x :: l) ltac:(discriminate)) as (m & Hm & _).
  apply lookup_lt_Some in Hm. lia.
Qed.

(** ** Rows and entries *)

Lemma row_length U d i B :
  length d = B * U -> i < B -> length (row U d i) = U.
Proof.
  intros Hd Hi. unfold row. rewrite length_take, length_drop. nia.
Qed.

Lemma row_lookup U d i j :
  j < U -> row U d i !! j = d !! (i * U + j).
Proof.
  intros Hj. unfold row. rewrite lookup_take_lt by exact Hj.
  apply lookup_drop.
Qed.

Lemma entry_lookup U d i j x :
  d !! (i * U + j) = Some x -> entry U d i j = x.
Proof. intros H. unfold entry. rewrite nth_lookup, H. reflexivity. Qed.

Lemma chunks_rows U B d : chunks U B d = map (row U d) (seq 0 B).
Proof.
  apply list_eq. intros i. rewrite list_lookup_fmap.
  destruct (decide (i < B)) as [Hi|Hi].
  - rewrite chunks_lookup by exact Hi. rewrite lookup_seq_lt by exact Hi.
    reflexivity.
  - rewrite lookup_ge_None_2 by (rewrite chunks_length; lia).
    rewrite lookup_ge_None_2 by (rewrite length_seq; lia). reflexivity.
Qed.

(** ** The mask of [fire_inhibition] *)

Lemma fold_insert_lookup {X} (f : X -> nat) (v : Q) (ps : list X) :
  forall (l : list Q) p, p < length l ->
  fold_left (fun d q => <[f q := v]> d) ps l !! p =
    if existsb (fun q => f q =? p) ps then Some v else l !! p.
Proof.
  induction ps as [|q ps IH]; intros l p Hp; [reflexivity|].
  simpl. rewrite IH by (rewrite length_insert; exact Hp).
  destruct (existsb _ ps); [rewrite orb_true_r; reflexivity|].
  rewrite orb_false_r. destruct (Nat.eqb_spec (f q) p) as [->|Hne].
  - apply list_lookup_insert_eq. exact Hp.
  - apply list_lookup_insert_ne. exact Hne.
Qed.

Lemma fold_insert_length {X} (f : X -> nat) (v : Q) (ps : list X) :
  forall l : list Q,
  length (fold_left (fun d q => <[f q := v]> d) ps l) = length l.
Proof.
  induction ps as [|q ps IH]; intros l; [reflexivity|].
  simpl. rewrite IH. apply length_insert.
Qed.

Lemma mask_positions (index : list nat) B U i j k :
  length index = B ->
  Forall (fun c => c < U) index ->
  i < B -> j < U ->
  index !! i = Some k ->
  existsb (fun p : nat * nat => p.1 * U + p.2 =? i * U + j) (zip (seq 0 B) index)
    = (j =? k).
Proof.
  intros Hlen Hall Hi Hj Hk.
  destruct (Nat.eqb_spec j k) as [->|Hne].
  - apply existsb_exists. exists (i, k). split; [|apply Nat.eqb_refl].
    apply list_elem_of_In, list_elem_of_lookup. exists i.
    rewrite lookup_zip_with, lookup_seq_lt, Hk by exact Hi. reflexivity.
  - apply not_true_is_false. intros H. apply existsb_exists in H as ([i' k'] & Hin & Heq).
    apply list_elem_of_In, list_elem_of_lookup in Hin as [i0 Hin].
    rewrite lookup_zip_with in Hin.
    destruct (seq 0 B !! i0) as [a|] eqn:Ea; [|discriminate].
    destruct (index !! i0) as [c|] eqn:Ec; [|discriminate].
    simpl in Hin. injection Hin as -> ->.
    apply lookup_seq in Ea as [Ea _]. simpl in Ea. subst i'.
    apply Nat.eqb_eq in Heq. simpl in Heq.
    assert (Hk' : k' < U) by (eapply Forall_lookup_1 in Hall; [exact Hall | exact Ec]).
    assert (i0 = i) by nia. subst i0.
    assert (k' = j) by lia. subst k'. congruence.
Qed.

Lemma nonzeros_all_zero l :
  (forall j x, l !! j = Some x -> x = 0%Q) -> nonzeros l = 0.
Proof.
  induction l as [|x l IH]; intros H; [reflexivity|].
  simpl. rewrite (H 0 x eq_refl). simpl. apply IH.
  intros j y Hj. apply (H (S j) y Hj).
Qed.

Lemma nonzeros_one_hot l k :
  (forall j x, j <> k -> l !! j = Some x -> x = 0%Q) -> nonzeros l <= 1.
Proof.
  revert k. induction l as [|x l IH]; intros k H; [simpl; lia|].
  simpl. destruct k as [|k].
  - rewrite nonzeros_all_zero.
    + destruct (Qeq_bool x 0); simpl; lia.
    + intros j y Hj. apply (H (S j) y); [lia | exact Hj].
  - rewrite (H 0 x) by (lia || reflexivity). simpl.
    apply (IH k). intros j y Hne Hj. apply (H (S j) y); [lia | exact Hj].
Qed.

(** ** Broadcasting keeps tensors well formed *)

Lemma fits_ones r : Forall2 fits (replicate (length r) 1) r.
Proof. induction r; constructor; [right; reflexivity | assumption]. Qed.

Lemma fits_refl r : Forall2 fits r r.
Proof. induction r; constructor; [left; reflexivity | assumption]. Qed.

Lemma broadcast_rev_fits x : forall y r,
  broadcast_rev x y = Some r ->
  Forall2 fits (x ++ replicate (length r - length x) 1) r /\
  Forall2 fits (y ++ replicate (length r - length y) 1) r.
Proof.
  induction x as [|a x IH]; intros y r H.
  - simpl in H. injection H as <-. simpl. rewrite Nat.sub_0_r, Nat.sub_diag.
    rewrite app_nil_r. split; [apply fits_ones | apply fits_refl].
  - destruct y as [|b y].
    + simpl in H. injection H as <-. rewrite Nat.sub_diag, app_nil_r.
      split; [apply fits_refl|]. apply (fits_ones (a :: x)).
    + simpl in H. destruct (broadcast_rev x y) as [r'|] eqn:E; [|discriminate].
      destruct (IH y r' E) as [H1 H2].
      destruct (Nat.eqb_spec a b) as [->|Hab].
      { injection H as <-. simpl. split; constructor; auto; left; reflexivity. }
      destruct (Nat.eqb_spec a 1) as [->|Ha].
      { injection H as <-. simpl. split; constructor; auto;
          [right | left]; reflexivity. }
      destruct (Nat.eqb_spec b 1) as [->|Hb]; [|discriminate].
      injection H as <-. simpl. split; constructor; auto; [left | right]; reflexivity.
Qed.

Lemma broadcast_shapes_fits s1 s2 s :
  broadcast_shapes s1 s2 = Some s ->
  Forall2 fits (pad_shape (length s) s1) s /\
  Forall2 fits (pad_shape (length s) s2) s.
Proof.
  unfold broadcast_shapes, pad_shape. intros H.
  destruct (broadcast_rev (reverse s1) (reverse s2)) as [r|] eqn:E; [|discriminate].
  injection H as <-. destruct (broadcast_rev_fits _ _ _ E) as [H1 H2].
  apply Forall2_reverse in H1, H2.
  rewrite reverse_app, reverse_replicate, reverse_involutive, length_reverse in H1, H2.
  rewrite length_reverse. split; assumption.
Qed.

Lemma length_concat_const {X} (L : list (list X)) m :
  Forall (fun c => length c = m) L -> length (concat L) = length L * m.
Proof.
  induction 1 as [|c L Hc _ IH]; [reflexivity|].
  simpl. rewrite length_app, Hc, IH. reflexivity.
Qed.

Lemma expand_length s : forall s' d,
  Forall2 fits s s' -> length d = numel s -> length (expand s s' d) = numel s'.
Proof.
  induction s as [|a s IH]; intros s' d HF Hd; inversion HF as [|? b ? s'0 Hab HF']; subst.
  - exact Hd.
  - simpl in *. destruct (Nat.eqb_spec a b) as [->|Hne].
    + rewrite (length_concat_const _ (numel s'0)).
      * rewrite length_map, chunks_length. reflexivity.
      * apply Forall_fmap.
        eapply Forall_impl; [apply (chunks_Forall_length (numel s) b d); lia|].
        intros c Hc. simpl. apply IH; assumption.
    + destruct Hab as [?| ->]; [contradiction|].
      rewrite (length_concat_const _ (numel s'0)).
      * rewrite length_replicate. reflexivity.
      * apply Forall_replicate. apply IH; [assumption | lia].
Qed.

Lemma numel_pad n s : numel (pad_shape n s) = numel s.
Proof.
  unfold pad_shape. induction (n - length s) as [|k IH]; [reflexivity|].
  simpl. rewrite IH. lia.
Qed.

Lemma broadcast_to_length s t s2 :
  (broadcast_shapes (shape t) s2 = Some s \/ broadcast_shapes s2 (shape t) = Some s) ->
  well_formed t -> length (broadcast_to s t) = numel s.
Proof.
  intros H Hw. unfold broadcast_to. apply expand_length.
  - destruct H as [H|H]; apply broadcast_shapes_fits in H; tauto.
  - rewrite numel_pad. exact Hw.
Qed.

Lemma binop_length f a b s d :
  well_formed a -> well_formed b ->
  binop f a b = Ok (s, d) -> length d = numel s.
Proof.
  intros Ha Hb. unfold binop.
  destruct (broadcast_shapes (shape a) (shape b)) as [s'|] eqn:E; [|discriminate].
  intros [= <- <-]. rewrite length_zip_with.
  rewrite (broadcast_to_length s' a (shape b)) by auto.
  rewrite (broadcast_to_length s' b (shape a)) by auto. lia.
Qed.

(** ** Executing [fire_inhibition] *)

Lemma argmax_dim1_eq a w ta B U :
  tensors w !! a = Some ta ->
  shape ta = [B; U] -> 0 < U ->
  argmax_dim1 a w = (Ok (map argmax_list (chunks U B (data ta))), w).
Proof.
  intros Ha Hs HU. unfold argmax_dim1.
  rewrite (bind_ok _ _ w ta w) by (apply read_ok, Ha).
  rewrite Hs. destruct (Nat.eqb_spec U 0); [lia | reflexivity].
Qed.

Lemma arange_eq B w : arange (Z.of_nat B) w = (Ok (seq 0 B), w).
Proof.
  unfold arange. destruct (Z.ltb_spec (Z.of_nat B) 0); [lia|].
  rewrite Nat2Z.id. reflexivity.
Qed.

Lemma index_put2_eq a rows cols w ta B U :
  tensors w !! a = Some ta ->
  requires_grad ta = false ->
  shape ta = [B; U] ->
  length rows = length cols ->
  Forall (fun r => r < B) rows ->
  Forall (fun c => c < U) cols ->
  index_put2 a rows cols 1%Q w =
    (Ok tt,
     set_tensors
       (<[a := mkTensor [B; U] (put_ones U (zip rows cols) (data ta)) false
                 (grad_fn ta) (init_flag ta)]> (tensors w)) w).
Proof.
  intros Ha Hrg Hs Hlen Hr Hc. unfold index_put2.
  rewrite (bind_ok _ _ w ta w) by (apply read_ok, Ha).
  rewrite Hrg, Hs. unfold broadcast_index.
  rewrite (proj2 (Nat.eqb_eq _ _) Hlen).
  replace (forallb _ (zip rows cols)) with true.
  - unfold write. rewrite Ha. reflexivity.
  - symmetry. apply forallb_forall. intros [r c] Hin.
    apply list_elem_of_In, list_elem_of_lookup in Hin as [i Hi].
    rewrite lookup_zip_with in Hi.
    destruct (rows !! i) as [r'|] eqn:Er; [|discriminate].
    destruct (cols !! i) as [c'|] eqn:Ec; [|discriminate].
    simpl in Hi. injection Hi as -> ->. simpl.
    apply andb_true_intro. split; apply Nat.ltb_lt.
    + eapply Forall_lookup_1 in Hr; [exact Hr | exact Er].
    + eapply Forall_lookup_1 in Hc; [exact Hc | exact Ec].
Qed.

Lemma put_ones_length U ps d : length (put_ones U ps d) = length d.
Proof. apply (fold_insert_length (fun p : nat * nat => p.1 * U + p.2)). Qed.

Lemma put_ones_lookup U ps d p :
  p < length d ->
  put_ones U ps d !! p =
    if existsb (fun q : nat * nat => q.1 * U + q.2 =? p) ps then Some 1%Q
    else d !! p.
Proof. apply (fold_insert_lookup (fun p : nat * nat => p.1 * U + p.2)). Qed.

Lemma index_bound U B d :
  0 < U -> Forall (fun c => c < U) (map argmax_list (chunks U B d)).
Proof.
  intros HU. apply Forall_fmap, Forall_forall. intros c Hc. simpl.
  apply argmax_list_bound; [|exact HU].
  apply list_elem_of_lookup in Hc as [i Hi].
  assert (i < B) by (apply lookup_lt_Some in Hi; rewrite chunks_length in Hi; exact Hi).
  rewrite chunks_lookup in Hi by assumption. injection Hi as <-.
  rewrite length_take. lia.
Qed.

Lemma fire_inhibition_eq self mem w tm tthr B U d :
  LIF.spike_grad self = LIF.Heaviside.apply ->
  tensors w !! mem = Some tm ->
  tensors w !! LIF.threshold self = Some tthr ->
  binop Qminus tm tthr = Ok ([B; U], d) ->
  length d = B * U ->
  0 < U ->
  exists w' rg gf,
    LIF.fire_inhibition self (Z.of_nat B) mem w =
      (Ok (length (tensors w) + 3), w') /\
    tensors w' !! (length (tensors w) + 3) =
      Some (mkTensor [B; U]
              (zip_with Qmult (map step d)
                 (put_ones U (zip (seq 0 B) (map argmax_list (chunks U B d)))
                    (replicate (B * U) 0%Q)))
              rg gf None).
Proof.
  intros Hsg Hm Ht Hop Hd HU.
  set (shifted := sub_tensor mem (LIF.threshold self) tm tthr [B; U] d).
  set (w1 := set_tensors (tensors w ++ [shifted]) w).
  assert (H1 : tensors w1 !! length (tensors w) = Some shifted) by apply lookup_snoc.
  set (spk_tmp := spike_tensor (length (tensors w)) (length (ctxs w1)) shifted).
  set (w2 := mkWorld (tensors w1 ++ [spk_tmp])
               (ctxs w1 ++ [mkContext [length (tensors w1)]])
               (instances w1) (n_objects w1)).
  assert (H2 : tensors w2 !! length (tensors w1) = Some spk_tmp) by apply lookup_snoc.
  set (mask0 := mkTensor [B; U] (replicate (numel [B; U]) 0%Q) false None None).
  set (w3 := set_tensors (tensors w2 ++ [mask0]) w2).
  assert (H3 : tensors w3 !! length (tensors w2) = Some mask0) by apply lookup_snoc.
  set (index := map argmax_list (chunks U B d)).
  assert (Hput := index_put2_eq (length (tensors w2)) (seq 0 B) index w3 mask0 B U
                    H3 eq_refl eq_refl).
  rewrite length_seq in Hput. unfold index in Hput at 1.
  rewrite length_map, chunks_length in Hput.
  specialize (Hput eq_refl).
  specialize (Hput ltac:(apply Forall_forall; intros r Hr;
                          apply elem_of_seq in Hr; lia)).
  specialize (Hput (index_bound U B d HU)).
  match type of Hput with _ = (_, ?w4') => set (w4 := w4') in * end.
  set (mask := mkTensor [B; U] (put_ones U (zip (seq 0 B) index) (data mask0))
                false (grad_fn mask0) (init_flag mask0)) in *.
  assert (E4 : tensors w4 = tensors w2 ++ [mask]).
  { unfold w4. cbn [tensors set_tensors w3]. apply insert_snoc. }
  assert (H4 : tensors w4 !! length (tensors w1) = Some spk_tmp).
  { rewrite E4. apply lookup_app_l_Some, H2. }
  assert (H5 : tensors w4 !! length (tensors w2) = Some mask).
  { rewrite E4. apply lookup_snoc. }
  assert (Hws : well_formed spk_tmp).
  { unfold well_formed. cbn. rewrite length_map. lia. }
  assert (Hwm : well_formed mask).
  { unfold well_formed. cbn. rewrite put_ones_length, length_replicate.
    reflexivity. }
  destruct (mul_same_shape w4 _ _ spk_tmp mask H4 H5 eq_refl Hws Hwm)
    as (rg & gf & Hmul).
  eexists _, rg, gf. split.
  - unfold LIF.fire_inhibition. rewrite Hsg.
    rewrite (bind_ok _ _ _ _ _ (sub_eq _ _ _ _ _ _ _ Hm Ht Hop)).
    fold shifted. fold w1.
    rewrite (bind_ok _ _ _ _ _ (argmax_dim1_eq _ _ _ B U H1 eq_refl HU)).
    rewrite (bind_ok _ _ _ _ _ (Heaviside_apply_eq _ _ _ H1)).
    fold spk_tmp. fold w2.
    rewrite (bind_ok _ _ _ _ _ (zeros_like_eq _ false _ _ H2)).
    change (set_tensors _ w2) with w3.
    rewrite (bind_ok _ _ _ _ _ (arange_eq B w3)).
    change (map argmax_list (chunks U B (data shifted))) with index.
    rewrite (bind_ok _ _ _ _ _ Hput).
    rewrite (bind_ok _ _ _ _ _ Hmul).
    unfold ret. f_equal. f_equal.
    rewrite E4. unfold w2, w1. cbn [tensors set_tensors].
    rewrite !length_app. simpl. lia.
  - cbn [tensors set_tensors]. rewrite E4.
    replace (length (tensors w) + 3) with (length (tensors w2 ++ [mask])).
    2:{ unfold w2, w1. cbn [tensors set_tensors]. rewrite !length_app. simpl. lia. }
    rewrite lookup_snoc. unfold mask, mask0. cbn. rewrite Nat.mul_1_r.
    reflexivity.
Qed.

Lemma step_times_one x : (step x * 1)%Q = step x.
Proof. destruct (step_binary x) as [-> | ->]; reflexivity. Qed.

Lemma step_times_zero x : (step x * 0)%Q = 0%Q.
Proof. destruct (step_binary x) as [-> | ->]; reflexivity. Qed.

(** One entry of what [fire_inhibition] computes: the spike of the shifted
    entry at the [argmax] of its row, zero elsewhere. *)
Lemma inhibited_entry B U d i j :
  length d = B * U -> 0 < U -> i < B -> j < U ->
  entry U
    (zip_with Qmult (map step d)
       (put_ones U (zip (seq 0 B) (map argmax_list (chunks U B d)))
          (replicate (B * U) 0%Q))) i j =
    if j =? argmax_list (row U d i) then step (entry U d i j) else 0%Q.
Proof.
  intros Hd HU Hi Hj.
  assert (Hp : i * U + j < B * U) by nia.
  destruct (lookup_lt_is_Some_2 d (i * U + j)) as [x Hx]; [lia|].
  apply entry_lookup. rewrite lookup_zip_with, list_lookup_fmap, Hx.
  rewrite put_ones_lookup by (rewrite length_replicate; exact Hp).
  rewrite (mask_positions _ B U i j (argmax_list (row U d i))); try assumption.
  - rewrite (entry_lookup _ _ _ _ _ Hx).
    destruct (j =? argmax_list (row U d i)); simpl.
    + rewrite step_times_one. reflexivity.
    + rewrite lookup_replicate_2 by exact Hp. simpl.
      rewrite step_times_zero. reflexivity.
  - rewrite length_map, chunks_length. reflexivity.
  - apply index_bound, HU.
  - rewrite list_lookup_fmap, chunks_lookup by exact Hi. reflexivity.
Qed.

(** C4: on a membrane of shape [(B, U)] with [batch_size = B], the
    threshold broadcasting into that shape, [fire_inhibition] returns a
    tensor of the same shape.  In each row [i], [k] being the first
    position of the largest shifted value, the entry at [k] is the step
    function of the shifted value there, every other entry is 0, hence at
    most one entry of the row is not 0, and the row is all 0 when the step
    function does not fire at [k]. *)
Theorem fire_inhibition_winner_takes_all
    (self : LIF.obj) (mem : ref) (w : world) (tm tthr : tensor)
    (B U : nat) (d : list Q) :
  LIF.spike_grad self = LIF.Heaviside.apply ->
  tensors w !! mem = Some tm ->
  shape tm = [B; U] ->
  well_formed tm ->
  0 < U ->
  tensors w !! LIF.threshold self = Some tthr ->
  well_formed tthr ->
  binop Qminus tm tthr = Ok ([B; U], d) ->
  exists spk w' tspk,
    LIF.fire_inhibition self (Z.of_nat B) mem w = (Ok spk, w') /\
    tensors w' !! spk = Some tspk /\
    shape tspk = shape tm /\
    well_formed tspk /\
    forall i, i < B ->
      let k := argmax_list (row U d i) in
      k < U /\
      (forall j, j < U -> (entry U d i j <= entry U d i k)%Q) /\
      (forall j, j < k -> (entry U d i j < entry U d i k)%Q) /\
      entry U (data tspk) i k = step (entry U d i k) /\
      (forall j, j < U -> j <> k -> entry U (data tspk) i j = 0%Q) /\
      (step (entry U d i k) = 0%Q ->
       forall j, j < U -> entry U (data tspk) i j = 0%Q) /\
      nonzeros (row U (data tspk) i) <= 1.
Proof.
  intros Hsg Hm Hs Hwm HU Ht Hwt Hop.
  assert (Hd : length d = B * U).
  { rewrite (binop_length _ _ _ _ _ Hwm Hwt Hop). simpl. lia. }
  destruct (fire_inhibition_eq self mem w tm tthr B U d Hsg Hm Ht Hop Hd HU)
    as (w' & rg & gf & Hrun & Hlook).
  eexists _, w', _. split; [exact Hrun|]. split; [exact Hlook|].
  set (out := zip_with Qmult (map step d)
                (put_ones U (zip (seq 0 B) (map argmax_list (chunks U B d)))
                   (replicate (B * U) 0%Q))).
  assert (Hlen : length out = B * U).
  { unfold out. rewrite length_zip_with, length_map, put_ones_length,
      length_replicate. lia. }
  split; [symmetry; exact Hs|].
  split; [unfold well_formed; cbn; fold out; rewrite Hlen; lia|].
  intros i Hi. cbv zeta. cbn [data]. fold out.
  set (k := argmax_list (row U d i)).
  assert (Hrow : length (row U d i) = U) by (eapply row_length; eassumption).
  destruct (argmax_list_spec (row U d i)) as (m & Hk & Hmax & Hfirst).
  { intros E. rewrite E in Hrow. simpl in Hrow. lia. }
  fold k in Hk, Hfirst.
  assert (HkU : k < U) by (apply lookup_lt_Some in Hk; lia).
  assert (Hek : entry U d i k = m).
  { apply entry_lookup. rewrite <- row_lookup by exact HkU. exact Hk. }
  assert (Hentry : forall j, j < U ->
            exists x, row U d i !! j = Some x /\ entry U d i j = x).
  { intros j Hj. destruct (lookup_lt_is_Some_2 (row U d i) j) as [x Hx]; [lia|].
    exists x. split; [exact Hx|]. apply entry_lookup.
    rewrite <- row_lookup by exact Hj. exact Hx. }
  assert (Hout : forall j, j < U ->
            entry U out i j = if j =? k then step (entry U d i j) else 0%Q).
  { intros j Hj. apply inhibited_entry; assumption. }
  assert (Hoff : forall j, j < U -> j <> k -> entry U out i j = 0%Q).
  { intros j Hj Hne. rewrite Hout by exact Hj.
    destruct (Nat.eqb_spec j k); [contradiction | reflexivity]. }
  split; [exact HkU|]. split; [|split; [|split; [|split; [|split]]]].
  - intros j Hj. destruct (Hentry j Hj) as (x & Hx & ->). rewrite Hek.
    eapply Hmax, Hx.
  - intros j Hj. destruct (Hentry j ltac:(lia)) as (x & Hx & ->). rewrite Hek.
    eapply Hfirst; [exact Hj | exact Hx].
  - rewrite Hout by exact HkU. rewrite Nat.eqb_refl. reflexivity.
  - exact Hoff.
  - intros Hsilent j Hj. destruct (Nat.eq_dec j k) as [->|Hne].
    + rewrite Hout by exact HkU. rewrite Nat.eqb_refl. exact Hsilent.
    + apply Hoff; assumption.
  - apply (nonzeros_one_hot _ k). intros j x Hne Hx.
    assert (Hj : j < U).
    { apply lookup_lt_Some in Hx. rewrite (row_length U out i B) in Hx; assumption. }
    rewrite row_lookup in Hx by exact Hj.
    rewrite <- (entry_lookup _ _ _ _ _ Hx). apply Hoff; assumption.
Qed.

(** C4 on the example of the specification: shifted values
    [[0.1, 0.9, -0.2], [-1, -1, -1]] (threshold 0) give a spike at index 1
    of row 0 only. *)
Lemma fire_inhibition_winner_takes_all_witness :
  let mem := mkTensor [2; 3] [1 # 10; 9 # 10; -(2 # 10); -1; -1; -1]%Q
               false None None in
  let thr := mkTensor [] [0]%Q false None None in
  let w := mkWorld [mem; thr] [] [] 0 in
  let self := LIF.mkObj 0 false true "subtract" false 1 1 LIF.Heaviside.apply in
  exists spk w' tspk,
    LIF.fire_inhibition self 2 0 w = (Ok spk, w') /\
    tensors w' !! spk = Some tspk /\
    shape tspk = [2; 3] /\
    entry 3 (data tspk) 0 1 = 1%Q /\
    entry 3 (data tspk) 0 0 = 0%Q /\
    entry 3 (data tspk) 0 2 = 0%Q /\
    (forall j, j < 3 -> entry 3 (data tspk) 1 j = 0%Q).
Proof.
  intros mem thr w self.
  destruct (fire_inhibition_winner_takes_all self 0 w mem thr 2 3
              [(1 # 10) - 0; (9 # 10) - 0; -(2 # 10) - 0; -1 - 0; -1 - 0; -1 - 0]%Q
              eq_refl eq_refl eq_refl eq_refl ltac:(lia) eq_refl eq_refl eq_refl)
    as (spk & w' & tspk & Hrun & Hl & Hs & _ & Hrows).
  exists spk, w', tspk. split; [exact Hrun|]. split; [exact Hl|].
  split; [exact Hs|].
  destruct (Hrows 0 ltac:(lia)) as (_ & _ & _ & H01 & H0 & _).
  destruct (Hrows 1 ltac:(lia)) as (_ & _ & _ & _ & _ & H1 & _).
  split; [exact H01|]. split; [apply H0; [lia | discriminate]|].
  split; [apply H0; [lia | discriminate]|].
  apply H1. reflexivity.
Defined.

(** ** The threshold shift, for the two shapes a threshold has *)

Lemma numel_ones k : numel (replicate k 1) = 1.
Proof. induction k as [|k IH]; [reflexivity|]. simpl. rewrite IH. reflexivity. Qed.

Lemma concat_replicate_replicate {X} b n (q : X) :
  concat (replicate b (replicate n q)) = replicate (b * n) q.
Proof.
  induction b as [|b IH]; [reflexivity|].
  simpl. rewrite IH, replicate_add. reflexivity.
Qed.

Lemma expand_ones s q :
  expand (replicate (length s) 1) s [q] = replicate (numel s) q.
Proof.
  induction s as [|b s IH]; [reflexivity|].
  cbn [length replicate expand numel fold_right].
  destruct (1 =? b) eqn:E.
  - apply Nat.eqb_eq in E. subst b. rewrite numel_ones.
    cbn [chunks map concat take]. rewrite IH, app_nil_r. f_equal.
    unfold numel. lia.
  - rewrite IH. apply concat_replicate_replicate.
Qed.

Lemma broadcast_shapes_scalar s : broadcast_shapes s [] = Some s.
Proof.
  unfold broadcast_shapes. change (reverse []) with (@nil nat).
  replace (broadcast_rev (reverse s) []) with (Some (reverse s))
    by (destruct (reverse s); reflexivity).
  rewrite reverse_involutive. reflexivity.
Qed.

(** A scalar threshold [q] is subtracted from every entry. *)
Lemma binop_scalar f tm tthr q :
  well_formed tm -> shape tthr = [] -> data tthr = [q] ->
  binop f tm tthr = Ok (shape tm, map (fun x => f x q) (data tm)).
Proof.
  intros Hw Hs Hd. unfold binop, broadcast_to.
  rewrite Hs, broadcast_shapes_scalar, pad_shape_diag, Hd.
  rewrite expand_diag by exact Hw.
  unfold pad_shape. simpl. rewrite Nat.sub_0_r, app_nil_r, expand_ones.
  rewrite zip_with_replicate_r_eq by exact Hw. reflexivity.
Qed.

Lemma expand_row B U d :
  length d = U -> expand [1; U] [B; U] d = concat (replicate B d).
Proof.
  intros Hd.
  assert (HU : expand [U] [U] d = d)
    by (apply expand_diag; simpl; lia).
  change (expand [1; U] [B; U] d) with
    (if 1 =? B
     then concat (map (expand [U] [U]) [take (numel [U]) d])
     else concat (replicate B (expand [U] [U] d))).
  destruct (Nat.eqb_spec 1 B) as [<-|_].
  - rewrite take_ge by (simpl; lia). cbn [map]. rewrite HU. reflexivity.
  - rewrite HU. reflexivity.
Qed.

(** A threshold per unit is subtracted from every row. *)
Lemma binop_per_unit f tm tthr B U :
  well_formed tm -> well_formed tthr ->
  shape tm = [B; U] -> shape tthr = [U] ->
  binop f tm tthr =
    Ok ([B; U], zip_with f (data tm) (concat (replicate B (data tthr)))).
Proof.
  intros Hwm Hwt Hsm Hst. unfold binop, broadcast_to.
  rewrite Hsm, Hst.
  assert (Hb : broadcast_shapes [B; U] [U] = Some [B; U]).
  { unfold broadcast_shapes. cbn. rewrite Nat.eqb_refl. reflexivity. }
  rewrite Hb. rewrite (pad_shape_diag [B; U]).
  rewrite expand_diag by (unfold well_formed in Hwm; rewrite Hsm in Hwm; exact Hwm).
  unfold well_formed in Hwt. rewrite Hst in Hwt.
  change (pad_shape (length [B; U]) [U]) with [1; U].
  rewrite expand_row by (simpl in Hwt; lia). reflexivity.
Qed.

(** * Further properties of the module *)

(** ** [LIF.detach] *)








(** ** [fire]: the threshold shift *)

Lemma step_shift x q : step (x - q) = if Qlt_le_dec q x then 1%Q else 0%Q.
Proof.
  unfold step. destruct (Qgtb (x - q) 0) eqn:E; destruct (Qlt_le_dec q x) as [H|H];
    try reflexivity; exfalso.
  - apply Qgtb_spec in E. apply (Qlt_not_le q x); [|exact H].
    apply Qlt_minus_iff. exact E.
  - apply Qlt_minus_iff in H. apply Qgtb_spec in H.
    unfold Qminus in E. congruence.
Qed.

Lemma concat_replicate_lookup {X} (l : list X) B i j :
  i < B -> j < length l ->
  concat (replicate B l) !! (i * length l + j) = l !! j.
Proof.
  revert i. induction B as [|B IH]; intros i Hi Hj; [lia|].
  simpl. destruct i as [|i].
  - simpl. apply lookup_app_l. exact Hj.
  - rewrite lookup_app_r by (simpl; lia).
    replace (S i * length l + j - length l) with (i * length l + j) by (simpl; lia).
    apply IH; [lia | exact Hj].
Qed.

(** X3.  With a scalar threshold and the default step function, [fire] returns
    a tensor of the membrane's shape that holds 1 exactly where the
    membrane is above the threshold, strictly, and 0 elsewhere; the
    membrane is left as it was. *)
Theorem fire_scalar_threshold
    (self : LIF.obj) (mem : ref) (w : world) (tm tthr : tensor) (q : Q) :
  LIF.spike_grad self = LIF.Heaviside.apply ->
  tensors w !! mem = Some tm ->
  well_formed tm ->
  tensors w !! LIF.threshold self = Some tthr ->
  shape tthr = [] -> data tthr = [q] ->
  exists spk w' tspk,
    LIF.fire self mem w = (Ok spk, w') /\
    tensors w' !! spk = Some tspk /\
    shape tspk = shape tm /\
    length (data tspk) = length (data tm) /\
    (forall i x, data tm !! i = Some x ->
       data tspk !! i = Some (if Qlt_le_dec q x then 1%Q else 0%Q)) /\
    tensors w' !! mem = Some tm.
Proof.
  intros Hsg Hm Hwm Ht Hs Hd.
  pose proof (binop_scalar Qminus tm tthr q Hwm Hs Hd) as Hop.
  pose proof (fire_default_eq self mem w tm tthr _ _ Hsg Hm Ht Hop) as Hfire.
  cbv zeta in Hfire.
  eexists _, _, _. split; [exact Hfire|]. split; [|split; [|split; [|split]]].
  - cbn [tensors]. rewrite lookup_app_r by lia.
    rewrite Nat.sub_succ_l, Nat.sub_diag by lia. reflexivity.
  - reflexivity.
  - cbn. rewrite !length_map. reflexivity.
  - intros i x Hx. cbn. rewrite !list_lookup_fmap, Hx. cbn.
    rewrite step_shift. reflexivity.
  - cbn [tensors]. apply lookup_app_l_Some, Hm.
Qed.

(** X3 on a concrete store. *)
Lemma fire_scalar_threshold_witness :
  let mem := mkTensor [3] [1 # 2; 1; 3 # 2]%Q false None None in
  let thr := mkTensor [] [1]%Q false None None in
  let w := mkWorld [mem; thr] [] [] 0 in
  let self := LIF.mkObj 0 false false "subtract" false 1 1 LIF.Heaviside.apply in
  exists spk w' tspk,
    LIF.fire self 0 w = (Ok spk, w') /\
    tensors w' !! spk = Some tspk /\
    data tspk !! 0 = Some 0%Q /\ data tspk !! 1 = Some 0%Q /\ data tspk !! 2 = Some 1%Q.
Proof.
  intros mem thr w self.
  destruct (fire_scalar_threshold self 0 w mem thr 1%Q
              eq_refl eq_refl eq_refl eq_refl eq_refl eq_refl)
    as (spk & w' & tspk & Hrun & Hl & _ & _ & He & _).
  exists spk, w', tspk. split; [exact Hrun|]. split; [exact Hl|].
  split; [|split].
  - apply (He 0 (1 # 2)%Q). reflexivity.
  - apply (He 1 1%Q). reflexivity.
  - apply (He 2 (3 # 2)%Q). reflexivity.
Defined.

(** X4.  With one threshold per unit, [fire] compares each entry of a
    [(B, U)] membrane with the threshold of its unit: entry [(i, j)] of
    the result is 1 exactly where the membrane is strictly above
    threshold [j]. *)
Theorem fire_per_unit_threshold
    (self : LIF.obj) (mem : ref) (w : world) (tm tthr : tensor) (B U : nat) :
  LIF.spike_grad self = LIF.Heaviside.apply ->
  tensors w !! mem = Some tm ->
  well_formed tm -> shape tm = [B; U] ->
  tensors w !! LIF.threshold self = Some tthr ->
  well_formed tthr -> shape tthr = [U] ->
  exists spk w' tspk,
    LIF.fire self mem w = (Ok spk, w') /\
    tensors w' !! spk = Some tspk /\
    shape tspk = [B; U] /\
    (forall i j x t, i < B -> j < U ->
       data tm !! (i * U + j) = Some x -> data tthr !! j = Some t ->
       data tspk !! (i * U + j) = Some (if Qlt_le_dec t x then 1%Q else 0%Q)).
Proof.
  intros Hsg Hm Hwm Hsm Ht Hwt Hst.
  pose proof (binop_per_unit Qminus tm tthr B U Hwm Hwt Hsm Hst) as Hop.
  pose proof (fire_default_eq self mem w tm tthr _ _ Hsg Hm Ht Hop) as Hfire.
  cbv zeta in Hfire.
  eexists _, _, _. split; [exact Hfire|]. split; [|split].
  - cbn [tensors]. rewrite lookup_app_r by lia.
    rewrite Nat.sub_succ_l, Nat.sub_diag by lia. reflexivity.
  - reflexivity.
  - intros i j x t Hi Hj Hx Htj. cbn.
    assert (HU : length (data tthr) = U).
    { unfold well_formed in Hwt. rewrite Hst in Hwt. simpl in Hwt. lia. }
    rewrite list_lookup_fmap, lookup_zip_with, Hx. cbn.
    rewrite <- HU at 1. rewrite concat_replicate_lookup by lia.
    rewrite Htj. cbn. rewrite step_shift. reflexivity.
Qed.

(** X4 on a concrete store. *)
Lemma fire_per_unit_threshold_witness :
  let mem := mkTensor [2; 2] [1; 1; 3; 3]%Q false None None in
  let thr := mkTensor [2] [0; 2]%Q false None None in
  let w := mkWorld [mem; thr] [] [] 0 in
  let self := LIF.mkObj 0 false false "subtract" false 1 1 LIF.Heaviside.apply in
  exists spk w' tspk,
    LIF.fire self 0 w = (Ok spk, w') /\
    tensors w' !! spk = Some tspk /\
    data tspk !! 0 = Some 1%Q /\ data tspk !! 1 = Some 0%Q /\
    data tspk !! 3 = Some 1%Q.
Proof.
  intros mem thr w self.
  destruct (fire_per_unit_threshold self 0 w mem thr 2 2
              eq_refl eq_refl eq_refl eq_refl eq_refl eq_refl eq_refl)
    as (spk & w' & tspk & Hrun & Hl & _ & He).
  exists spk, w', tspk. split; [exact Hrun|]. split; [exact Hl|].
  split; [|split].
  - apply (He 0 0 1%Q 0%Q); [lia | lia | reflexivity | reflexivity].
  - apply (He 0 1 1%Q 2%Q); [lia | lia | reflexivity | reflexivity].
  - apply (He 1 1 3%Q 2%Q); [lia | lia | reflexivity | reflexivity].
Defined.

(** ** [Heaviside]: forward and backward together *)

(** X5.  [backward] on the context [forward] has filled lets the upstream
    gradient through exactly where the input was strictly positive, and
    returns zero elsewhere; the context then holds the forward output, and
    input and upstream gradient are as they were. *)
Theorem Heaviside_backward_after_forward
    (ctx input_ grad_output : ref) (w : world) (tin tg : tensor) (c : context) :
  ctxs w !! ctx = Some c ->
  tensors w !! input_ = Some tin ->
  tensors w !! grad_output = Some tg ->
  shape tg = shape tin -> well_formed tg -> well_formed tin ->
  exists out w1 grad w2 tgrad,
    LIF.Heaviside.forward ctx input_ w = (Ok out, w1) /\
    ctxs w1 !! ctx = Some (mkContext [out]) /\
    LIF.Heaviside.backward ctx grad_output w1 = (Ok grad, w2) /\
    tensors w2 !! grad = Some tgrad /\
    shape tgrad = shape tg /\
    (forall i x g, data tin !! i = Some x -> data tg !! i = Some g ->
       (0 < x)%Q -> data tgrad !! i = Some g) /\
    (forall i x g, data tin !! i = Some x -> data tg !! i = Some g ->
       (x <= 0)%Q -> exists z, data tgrad !! i = Some z /\ (z == 0)%Q) /\
    tensors w2 !! input_ = Some tin /\
    tensors w2 !! grad_output = Some tg.
Proof.
  intros Hc Hin Hg Hs Hwg Hwi.
  pose proof (Heaviside_forward_eq w ctx input_ tin c Hin Hc) as Hf.
  set (tout := mkTensor (shape tin) (map step (data tin)) false None None) in *.
  match type of Hf with _ = (_, ?w1') => set (w1 := w1') in * end.
  assert (Hc1 : ctxs w1 !! ctx = Some (mkContext [length (tensors w)])).
  { cbn [ctxs w1]. apply list_lookup_insert_eq. apply lookup_lt_Some in Hc. exact Hc. }
  assert (Hg1 : tensors w1 !! grad_output = Some tg) by (apply lookup_app_l_Some, Hg).
  assert (Ho1 : tensors w1 !! length (tensors w) = Some tout) by apply lookup_snoc.
  assert (Hwo : well_formed tout).
  { unfold well_formed. cbn. rewrite length_map. exact Hwi. }
  destruct (mul_same_shape w1 grad_output (length (tensors w)) tg tout Hg1 Ho1 Hs Hwg Hwo)
    as (rg & gf & Hmul).
  eexists _, w1, _, _, _. split; [exact Hf|]. split; [exact Hc1|].
  split; [|split; [|split; [|split; [|split; [|split]]]]].
  - unfold LIF.Heaviside.backward.
    rewrite (bind_ok _ _ _ _ _ (read_ctx_ok _ _ _ Hc1)). cbn [saved_tensors].
    rewrite (bind_ok _ _ _ _ _ Hmul). reflexivity.
  - cbn [tensors set_tensors]. apply lookup_snoc.
  - reflexivity.
  - intros i x g Hx Hgi Hpos. cbn.
    rewrite lookup_zip_with, Hgi, list_lookup_fmap, Hx. cbn.
    rewrite (step_fires x Hpos), Qmult_one_r. reflexivity.
  - intros i x g Hx Hgi Hneg. cbn.
    rewrite lookup_zip_with, Hgi, list_lookup_fmap, Hx. cbn.
    rewrite (step_silent x Hneg). eexists. split; [reflexivity|]. apply Qmult_0_r.
  - cbn [tensors set_tensors]. do 2 apply lookup_app_l_Some. exact Hin.
  - cbn [tensors set_tensors]. apply lookup_app_l_Some. exact Hg1.
Qed.

(** X5 on a concrete store. *)
Lemma Heaviside_backward_after_forward_witness :
  let x := mkTensor [3] [-1; 0; 1 # 2]%Q false None None in
  let g := mkTensor [3] [3; 4; 5]%Q false None None in
  let w := mkWorld [x; g] [mkContext []] [] 0 in
  exists out w1 grad w2 tgrad,
    LIF.Heaviside.forward 0 0 w = (Ok out, w1) /\
    LIF.Heaviside.backward 0 1 w1 = (Ok grad, w2) /\
    tensors w2 !! grad = Some tgrad /\
    data tgrad !! 2 = Some 5%Q.
Proof.
  intros x g w.
  destruct (Heaviside_backward_after_forward 0 0 1 w x g (mkContext [])
              eq_refl eq_refl eq_refl eq_refl eq_refl eq_refl)
    as (out & w1 & grad & w2 & tgrad & Hf & _ & Hb & Hl & _ & Hpos & _).
  exists out, w1, grad, w2, tgrad.
  split; [exact Hf|]. split; [exact Hb|]. split; [exact Hl|].
  apply (Hpos 2 (1 # 2)%Q 5%Q); reflexivity.
Defined.

(** X6.  [backward] unpacks exactly one saved tensor: on a context that holds
    none, or several, it raises and leaves the store as it is. *)
Theorem Heaviside_backward_needs_one_saved
    (ctx grad_output : ref) (w : world) (c : context) :
  ctxs w !! ctx = Some c ->
  length (saved_tensors c) <> 1 ->
  LIF.Heaviside.backward ctx grad_output w = (Err (ValueError "unpack"), w).
Proof.
  intros Hc Hn. unfold LIF.Heaviside.backward.
  rewrite (bind_ok _ _ _ _ _ (read_ctx_ok _ _ _ Hc)).
  destruct (saved_tensors c) as [|s [|s' l]]; [reflexivity | | reflexivity].
  simpl in Hn. contradiction.
Qed.

(** X6 on a concrete store. *)
Lemma Heaviside_backward_needs_one_saved_witness :
  let g := mkTensor [1] [3]%Q false None None in
  let w := mkWorld [g] [mkContext []] [] 0 in
  LIF.Heaviside.backward 0 0 w = (Err (ValueError "unpack"), w).
Proof.
  intros g w.
  apply (Heaviside_backward_needs_one_saved 0 0 w (mkContext [])).
  - reflexivity.
  - simpl. lia.
Defined.

(** ** The placeholders *)

(** X7.  Every [init_*] function returns placeholders it has just created: they
    are new in the store, no two of them are the same object, each is an
    empty tensor flagged [init_flag = False], and nothing else of the store
    moves.  [init_stein] and [init_lapicque] are [init_synaptic] and
    [init_leaky]. *)
Theorem init_states_are_new_placeholders (w : world) :
  (exists mem w',
     LIF.init_leaky w = (Ok mem, w') /\ LIF.init_lapicque w = (Ok mem, w') /\
     length (tensors w) <= mem /\ tensors w' !! mem = Some placeholder /\
     extends w w') /\
  (exists syn mem w',
     LIF.init_synaptic w = (Ok (syn, mem), w') /\
     LIF.init_stein w = (Ok (syn, mem), w') /\
     NoDup [syn; mem] /\
     Forall (fun r : ref => length (tensors w) <= r /\
                            tensors w' !! r = Some placeholder) [syn; mem] /\
     extends w w') /\
  (exists syn_exc syn_inh mem w',
     LIF.init_alpha w = (Ok (syn_exc, syn_inh, mem), w') /\
     NoDup [syn_exc; syn_inh; mem] /\
     Forall (fun r : ref => length (tensors w) <= r /\
                            tensors w' !! r = Some placeholder)
       [syn_exc; syn_inh; mem] /\
     extends w w').
Proof.
  assert (Hext : forall l, extends w (set_tensors (tensors w ++ l) w)).
  { intros l. repeat split; auto. intros r t Hr. simpl.
    apply lookup_app_l_Some, Hr. }
  assert (Hk : forall k l, k < length l ->
            (tensors w ++ l) !! (length (tensors w) + k) = l !! k).
  { intros k l Hk. rewrite lookup_app_r by lia. f_equal. lia. }
  split; [|split].
  - exists (length (tensors w)), (set_tensors (tensors w ++ [placeholder]) w).
    split; [reflexivity|]. split; [reflexivity|]. split; [lia|].
    split; [apply lookup_snoc | apply Hext].
  - exists (length (tensors w)), (S (length (tensors w))),
      (set_tensors (tensors w ++ [placeholder; placeholder]) w).
    assert (E : LIF.init_synaptic w =
      (Ok (length (tensors w), S (length (tensors w))),
       set_tensors (tensors w ++ [placeholder; placeholder]) w)).
    { unfold LIF.init_synaptic, _SpikeTensor, bind, alloc, ret. cbn.
      rewrite length_app, <- app_assoc. cbn. rewrite Nat.add_1_r. reflexivity. }
    split; [exact E|]. split; [exact E|]. split.
    { apply NoDup_cons. split; [|apply NoDup_singleton].
      intros H. apply list_elem_of_singleton in H. lia. }
    split; [|apply Hext].
    repeat constructor; try lia; cbn [tensors set_tensors].
    + rewrite <- (Nat.add_0_r (length (tensors w))) at 1. apply Hk. simpl. lia.
    + rewrite <- Nat.add_1_r. apply Hk. simpl. lia.
  - exists (length (tensors w)), (S (length (tensors w))), (S (S (length (tensors w)))),
      (set_tensors (tensors w ++ [placeholder; placeholder; placeholder]) w).
    split.
    { unfold LIF.init_alpha, _SpikeTensor, bind, alloc, ret. cbn.
      rewrite !length_app, <- !app_assoc. cbn. rewrite !Nat.add_1_r. reflexivity. }
    split.
    { apply NoDup_cons. split.
      - intros H. apply elem_of_cons in H as [H|H]; [lia|].
        apply list_elem_of_singleton in H. lia.
      - apply NoDup_cons. split; [|apply NoDup_singleton].
        intros H. apply list_elem_of_singleton in H. lia. }
    split; [|apply Hext].
    repeat constructor; try lia; cbn [tensors set_tensors].
    + rewrite <- (Nat.add_0_r (length (tensors w))) at 1. apply Hk. simpl. lia.
    + rewrite <- Nat.add_1_r. apply Hk. simpl. lia.
    + replace (S (S (length (tensors w)))) with (length (tensors w) + 2) by lia.
      apply Hk. simpl. lia.
Qed.

(** X8.  A recurrence starts from placeholders and materializes them on its
    first input: [_SpikeTorchConv] on the two placeholders of
    [init_synaptic] returns a list of two distinct zero tensors shaped like
    the input, plain tensors without [init_flag]; on the placeholder of
    [init_leaky] it returns the one tensor itself.  The placeholders are
    still placeholders afterwards. *)
Theorem placeholders_materialize (input_ : ref) (w : world) (tin : tensor) :
  tensors w !! input_ = Some tin ->
  (exists syn mem w1 s1 s2 w2,
     LIF.init_synaptic w = (Ok (syn, mem), w1) /\
     _SpikeTorchConv [syn; mem] input_ w1 = (Ok (Many [s1; s2]), w2) /\
     s1 <> s2 /\
     tensors w2 !! s1 = Some (zeros_of tin) /\
     tensors w2 !! s2 = Some (zeros_of tin) /\
     init_flag (zeros_of tin) = None /\
     tensors w2 !! syn = Some placeholder /\
     tensors w2 !! mem = Some placeholder) /\
  (exists mem w1 s w2,
     LIF.init_leaky w = (Ok mem, w1) /\
     _SpikeTorchConv [mem] input_ w1 = (Ok (One s), w2) /\
     tensors w2 !! s = Some (zeros_of tin) /\
     tensors w2 !! mem = Some placeholder).
Proof.
  intros Hin. split.
  - set (w1 := set_tensors (tensors w ++ [placeholder; placeholder]) w).
    assert (E : LIF.init_synaptic w =
      (Ok (length (tensors w), S (length (tensors w))), w1)).
    { unfold LIF.init_synaptic, _SpikeTensor, bind, alloc, ret. cbn.
      rewrite length_app, <- app_assoc. cbn. rewrite Nat.add_1_r. reflexivity. }
    assert (H0 : tensors w1 !! length (tensors w) = Some placeholder).
    { cbn [tensors w1 set_tensors]. rewrite lookup_app_r by lia.
      rewrite Nat.sub_diag. reflexivity. }
    assert (H1 : tensors w1 !! S (length (tensors w)) = Some placeholder).
    { cbn [tensors w1 set_tensors]. rewrite lookup_app_r by lia.
      rewrite Nat.sub_succ_l, Nat.sub_diag by lia. reflexivity. }
    assert (Hin1 : tensors w1 !! input_ = Some tin) by (apply lookup_app_l_Some, Hin).
    assert (Hv : Forall (fun a : ref => is_Some (tensors w1 !! a))
                   [length (tensors w); S (length (tensors w))]).
    { repeat constructor; eexists; eassumption. }
    pose proof (SpikeTorchConv_eq _ _ _ _ Hin1 Hv) as Hrun.
    eexists _, _, w1, _, _, _. split; [exact E|]. split; [exact Hrun|].
    split; [lia|].
    split; [apply (conv_result_lookup _ w1 tin 0 Hv); simpl; lia|].
    split; [apply (conv_result_lookup _ w1 tin 1 Hv); simpl; lia|].
    split; [reflexivity|].
    split; cbn [tensors set_tensors]; apply lookup_app_l_Some; assumption.
  - set (w1 := set_tensors (tensors w ++ [placeholder]) w).
    assert (H0 : tensors w1 !! length (tensors w) = Some placeholder) by apply lookup_snoc.
    assert (Hin1 : tensors w1 !! input_ = Some tin) by (apply lookup_app_l_Some, Hin).
    assert (Hv : Forall (fun a : ref => is_Some (tensors w1 !! a)) [length (tensors w)]).
    { repeat constructor; eexists; eassumption. }
    pose proof (SpikeTorchConv_eq _ _ _ _ Hin1 Hv) as Hrun.
    eexists _, w1, _, _. split; [reflexivity|]. split; [exact Hrun|].
    split; [apply (conv_result_lookup _ w1 tin 0 Hv); simpl; lia|].
    cbn [tensors set_tensors]. apply lookup_app_l_Some; assumption.
Qed.

(** X8 on a concrete store. *)
Lemma placeholders_materialize_witness :
  let x := mkTensor [4; 10] (replicate 40 (1 # 2)%Q) false None None in
  let w := mkWorld [x] [] [] 0 in
  exists mem w1 s w2 z,
    LIF.init_leaky w = (Ok mem, w1) /\
    _SpikeTorchConv [mem] 0 w1 = (Ok (One s), w2) /\
    tensors w2 !! s = Some z /\
    shape z = [4; 10] /\ data z = replicate 40 0%Q /\ init_flag z = None.
Proof.
  intros x w.
  destruct (placeholders_materialize 0 w x eq_refl)
    as (_ & mem & w1 & s & w2 & Hi & Hc & Hs & _).
  exists mem, w1, s, w2, (zeros_of x).
  split; [exact Hi|]. split; [exact Hc|]. split; [exact Hs|].
  repeat split.
Defined.

(** ** Construction *)








(** ** The registry across [init] *)

Lemma construct_all_objects l w :
  n_objects (construct_all l w) = n_objects w + length l.
Proof.
  revert w. induction l as [|a l IH]; intros w; simpl; [lia|].
  unfold construct_all in IH. rewrite IH.
  destruct (new_registers a w) as [_ ->]. lia.
Qed.

(** X11.  After [init], a new series of constructions leaves exactly the new
    neurons in the registry, in construction order; identities are not
    reused, so none of them is a neuron registered before the [init]. *)
Theorem registry_rebuilt_after_init (l1 l2 : list LIF.args) (w : world) :
  Forall (fun x => x < n_objects w) (instances w) ->
  let w1 := construct_all l1 w in
  let w2 := construct_all l2 (run Call_init w1) in
  instances w2 = seq (n_objects w + length l1) (length l2) /\
  forall x, x ∈ instances w2 -> x ∉ instances w1.
Proof.
  intros Hreg w1 w2.
  assert (E2 : instances w2 = seq (n_objects w + length l1) (length l2)).
  { unfold w2. rewrite construct_all_registry. cbn [run LIF.init snd instances set_instances].
    cbn. unfold w1. rewrite construct_all_objects. reflexivity. }
  split; [exact E2|].
  intros x Hx Hx1. rewrite E2 in Hx. apply elem_of_seq in Hx.
  unfold w1 in Hx1. rewrite construct_all_registry in Hx1.
  apply elem_of_app in Hx1 as [Hx1|Hx1].
  - eapply Forall_forall in Hreg; [|exact Hx1]. lia.
  - apply elem_of_seq in Hx1. lia.
Qed.

(** X11 on a concrete store. *)
Lemma registry_rebuilt_after_init_witness :
  let ok := LIF.defaults (LIF.Number (9 # 10)%Q) in
  let w := mkWorld [] [] [] 0 in
  instances (construct_all [ok] (run Call_init (construct_all [ok; ok] w))) = [2].
Proof.
  intros ok w.
  destruct (registry_rebuilt_after_init [ok; ok] [ok] w (Forall_nil_2 _)) as [H _].
  exact H.
Defined.

(** ** [mem_reset] and [fire], whatever the step function *)

(** X12.  [mem_reset] does what [fire] does and then detaches a copy: when
    [fire] raises, [mem_reset] raises the same exception from the same
    store; when [fire] returns a tensor, [mem_reset] returns a new tensor
    with its shape and values that requires no grad and has no [grad_fn],
    having added two tensors to the store of [fire] and changed none. *)
Theorem mem_reset_follows_fire (self : LIF.obj) (mem : ref) (w : world) :
  (forall e w1,
     LIF.fire self mem w = (Err e, w1) ->
     LIF.mem_reset self mem w = (Err e, w1)) /\
  (forall spk w1 t,
     LIF.fire self mem w = (Ok spk, w1) ->
     tensors w1 !! spk = Some t ->
     exists reset w2,
       LIF.mem_reset self mem w = (Ok reset, w2) /\
       tensors w2 !! reset =
         Some (mkTensor (shape t) (data t) false None (init_flag t)) /\
       length (tensors w1) < reset /\
       length (tensors w2) = length (tensors w1) + 2 /\
       (forall r x, tensors w1 !! r = Some x -> tensors w2 !! r = Some x) /\
       ctxs w2 = ctxs w1 /\ instances w2 = instances w1).
Proof.
  split.
  - unfold LIF.fire, LIF.mem_reset. intros e w1 H.
    destruct (sub mem (LIF.threshold self) w) as [[ms|e'] wa] eqn:Es.
    + rewrite (bind_ok _ _ _ _ _ Es) in H. rewrite (bind_ok _ _ _ _ _ Es).
      destruct (LIF.spike_grad self ms wa) as [[s|e''] wb] eqn:Eg.
      * rewrite (bind_ok _ _ _ _ _ Eg) in H. discriminate.
      * rewrite (bind_err _ _ _ _ _ Eg) in H. rewrite (bind_err _ _ _ _ _ Eg).
        exact H.
    + rewrite (bind_err _ _ _ _ _ Es) in H. rewrite (bind_err _ _ _ _ _ Es).
      exact H.
  - intros spk w1 t Hfire Hspk.
    pose proof (mem_reset_after_fire _ _ _ _ _ _ Hfire Hspk) as Hreset.
    eexists _, _. split; [exact Hreset|]. cbn [tensors set_tensors].
    split; [|split; [|split; [|split]]].
    + rewrite lookup_app_r by lia.
      rewrite Nat.sub_succ_l, Nat.sub_diag by lia. reflexivity.
    + lia.
    + rewrite length_app. simpl. lia.
    + intros r x Hr. apply lookup_app_l_Some, Hr.
    + split; reflexivity.
Qed.

(** X12 on a concrete store. *)
Lemma mem_reset_follows_fire_witness :
  let mem := mkTensor [2] [3; 0]%Q true None None in
  let thr := mkTensor [] [1]%Q false None None in
  let w := mkWorld [mem; thr] [] [] 0 in
  let self := LIF.mkObj 0 false false "subtract" false 1 1 (fun x => ret x) in
  exists reset w2,
    LIF.mem_reset self 0 w = (Ok reset, w2) /\
    tensors w2 !! reset = Some (mkTensor [2] [3 - 1; 0 - 1]%Q false None None).
Proof.
  intros mem thr w self.
  destruct (mem_reset_follows_fire self 0 w) as [_ H].
  destruct (H 2 (set_tensors [mem; thr;
               mkTensor [2] [3 - 1; 0 - 1]%Q true
                 (Some (SubBackward0 (AccumulateGrad 0) NoEdge)) None] w)
              (mkTensor [2] [3 - 1; 0 - 1]%Q true
                 (Some (SubBackward0 (AccumulateGrad 0) NoEdge)) None)
              eq_refl eq_refl)
    as (reset & w2 & Hrun & Hl & _).
  exists reset, w2. split; [exact Hrun | exact Hl].
Defined.

(** ** A threshold that does not broadcast *)

Lemma broadcast_shapes_wrong_units B U K :
  K <> U -> K <> 1 -> U <> 1 -> broadcast_shapes [B; U] [K] = None.
Proof.
  intros H1 H2 H3. unfold broadcast_shapes. cbn.
  destruct (Nat.eqb_spec U K); [congruence|].
  destruct (Nat.eqb_spec U 1); [congruence|].
  destruct (Nat.eqb_spec K 1); [congruence|]. reflexivity.
Qed.

(** X13.  A threshold per unit whose length is not the number of units stops
    [fire], [fire_inhibition] and [mem_reset] at the subtraction: each
    raises the [RuntimeError] of torch, before the step function is
    called, and leaves the store exactly as it was. *)
Theorem wrong_threshold_length_raises
    (self : LIF.obj) (batch_size : Z) (mem : ref) (w : world)
    (tm tthr : tensor) (B U K : nat) :
  tensors w !! mem = Some tm -> shape tm = [B; U] ->
  tensors w !! LIF.threshold self = Some tthr -> shape tthr = [K] ->
  K <> U -> K <> 1 -> U <> 1 ->
  LIF.fire self mem w = (Err RuntimeError, w) /\
  LIF.fire_inhibition self batch_size mem w = (Err RuntimeError, w) /\
  LIF.mem_reset self mem w = (Err RuntimeError, w).
Proof.
  intros Hm Hsm Ht Hst H1 H2 H3.
  assert (Hsub : sub mem (LIF.threshold self) w = (Err RuntimeError, w)).
  { unfold sub.
    rewrite (bind_ok _ _ w tm w) by (apply read_ok, Hm).
    rewrite (bind_ok _ _ w tthr w) by (apply read_ok, Ht).
    unfold bind, lift, binop.
    rewrite Hsm, Hst, (broadcast_shapes_wrong_units B U K H1 H2 H3). reflexivity. }
  unfold LIF.fire, LIF.fire_inhibition, LIF.mem_reset.
  rewrite !(bind_err _ _ _ _ _ Hsub). auto.
Qed.

(** X13 on a concrete store. *)
Lemma wrong_threshold_length_raises_witness :
  let mem := mkTensor [2; 3] [1; 2; 3; 4; 5; 6]%Q false None None in
  let thr := mkTensor [2] [1; 1]%Q false None None in
  let w := mkWorld [mem; thr] [] [] 0 in
  let self := LIF.mkObj 0 false false "subtract" false 1 1 LIF.Heaviside.apply in
  LIF.fire self 0 w = (Err RuntimeError, w).
Proof.
  intros mem thr w self.
  apply (wrong_threshold_length_raises self 2 0 w mem thr 2 3 2);
    reflexivity || discriminate.
Defined.

(** ** Which calls change a tensor *)

Section Kept.
Variable w0 : world.
Let P := tensors_kept w0.

Lemma ret_kept {A} (a : A) : hoare P (ret a) (fun _ => P).
Proof. apply hoare_ret. auto. Qed.

Lemma raise_kept {A} e : hoare P (@raise A e) (fun _ => P).
Proof. apply hoare_raise. auto. Qed.

Lemma lift_kept {A} (r : result A) : hoare P (lift r) (fun _ => P).
Proof. apply hoare_lift. auto. Qed.

Lemma alloc_kept t : hoare P (alloc t) (fun _ => P).
Proof. intros w H r x Hr. simpl. apply lookup_app_l_Some, H, Hr. Qed.

Lemma read_kept r : hoare P (read r) (fun _ => P).
Proof. intros w H. unfold read. destruct (tensors w !! r); exact H. Qed.

Lemma new_ctx_kept : hoare P new_ctx (fun _ => P).
Proof. intros w H. exact H. Qed.

Lemma read_ctx_kept c : hoare P (read_ctx c) (fun _ => P).
Proof. intros w H. unfold read_ctx. destruct (ctxs w !! c); exact H. Qed.

Lemma write_ctx_kept c x : hoare P (write_ctx c x) (fun _ => P).
Proof. intros w H. unfold write_ctx. destruct (ctxs w !! c); exact H. Qed.

End Kept.

Create HintDb kept.
#[local] Hint Resolve ret_kept raise_kept lift_kept alloc_kept read_kept
  new_ctx_kept read_ctx_kept write_ctx_kept : kept.

Ltac kept :=
  match goal with
  | |- hoare _ (bind _ _) _ => apply bind_inv; [kept | intros ?; kept]
  | |- hoare _ (if ?b then _ else _) _ => destruct b; kept
  | |- hoare _ (match ?x with _ => _ end) _ => destruct x; kept
  | |- hoare _ _ _ => solve [eauto with kept]
  | _ => idtac
  end.

Lemma new_keeps_tensors a w : tensors_kept w (LIF.new a w).2.
Proof.
  unfold LIF.new, LIF.__init__. unfold bind at 1. unfold object_new at 1.
  unfold bind at 1. unfold LIF.instances_append at 1.
  match goal with |- context [bind _ _ ?w1] => set (w1' := w1) end.
  match goal with
  | |- tensors_kept w (?m w1').2 =>
      assert (H : hoare (extends w1') m (keeps w1')) by frame
  end.
  destruct (H w1' (extends_refl w1')) as (Ht & _).
  intros r t Hr. apply Ht. exact Hr.
Qed.

(** X14.  Of all the calls of the module, only [LIF.detach] changes a tensor that
    exists: after any other call, returned or raised, every tensor of
    the store holds what it held. *)
Theorem only_detach_changes_a_tensor (c : call) (w : world) :
  default_step c ->
  (forall states, c <> Call_detach states) ->
  forall r t, tensors w !! r = Some t -> tensors (run c w) !! r = Some t.
Proof.
  intros Hc Hnd.
  assert (Hext : forall w', extends w w' -> tensors_kept w w').
  { intros w' (Ht & _). exact Ht. }
  change (tensors_kept w (run c w)).
  destruct c; cbn [run default_step] in *.
  - apply new_keeps_tensors.
  - apply Hext. exact (fire_frame w self (default_spike_grad_frame w self Hc) mem w
                         (extends_refl w)).
  - apply Hext. exact (fire_inhibition_frame w self (default_spike_grad_frame w self Hc)
                         batch_size mem w (extends_refl w)).
  - apply Hext. exact (mem_reset_frame w self (default_spike_grad_frame w self Hc) mem w
                         (extends_refl w)).
  - intros r t Hr. exact Hr.
  - apply Hext.
    assert (H : hoare (extends w) LIF.init_leaky (keeps w))
      by (unfold LIF.init_leaky; frame).
    exact (H w (extends_refl w)).
  - apply Hext.
    assert (H : hoare (extends w) LIF.init_synaptic (keeps w))
      by (unfold LIF.init_synaptic; frame).
    exact (H w (extends_refl w)).
  - apply Hext.
    assert (H : hoare (extends w) LIF.init_stein (keeps w))
      by (unfold LIF.init_stein, LIF.init_synaptic; frame).
    exact (H w (extends_refl w)).
  - apply Hext.
    assert (H : hoare (extends w) LIF.init_lapicque (keeps w))
      by (unfold LIF.init_lapicque, LIF.init_leaky; frame).
    exact (H w (extends_refl w)).
  - apply Hext.
    assert (H : hoare (extends w) LIF.init_alpha (keeps w))
      by (unfold LIF.init_alpha; frame).
    exact (H w (extends_refl w)).
  - exfalso. apply (Hnd states). reflexivity.
  - apply Hext. exact (zeros_frame w states w (extends_refl w)).
  - assert (H : hoare (tensors_kept w) (LIF.Heaviside.forward ctx input_)
                  (fun _ => tensors_kept w)).
    { unfold LIF.Heaviside.forward. unfold_torch. kept. }
    apply (H w). intros r t Hr. exact Hr.
  - assert (H : hoare (tensors_kept w) (LIF.Heaviside.backward ctx grad_output)
                  (fun _ => tensors_kept w)).
    { unfold LIF.Heaviside.backward. unfold_torch. kept. }
    apply (H w). intros r t Hr. exact Hr.
  - apply Hext. exact (fresh_keeps w _ (Heaviside_apply_frame w input_) w (extends_refl w)).
  - apply Hext. exact (fresh_keeps w _ (SpikeTensor_frame w flag) w (extends_refl w)).
  - apply Hext. exact (SpikeTorchConv_frame w args input_ w (extends_refl w)).
Qed.

(** X14 on a concrete store. *)
Lemma only_detach_changes_a_tensor_witness :
  let x := mkTensor [2] [1; -1]%Q true None None in
  let w := mkWorld [x] [mkContext [0]] [] 0 in
  tensors (run (Call_Heaviside_forward 0 0) w) !! 0 = Some x /\
  tensors (run (Call_zeros [0]) w) !! 0 = Some x.
Proof.
  intros x w. split.
  - apply (only_detach_changes_a_tensor (Call_Heaviside_forward 0 0) w I);
      [discriminate | reflexivity].
  - apply (only_detach_changes_a_tensor (Call_zeros [0]) w I);
      [discriminate | reflexivity].
Defined.

(** ** [fire_inhibition]: how many spikes, and the batch size *)

Lemma nonzeros_exactly_one l : forall k,
  l !! k = Some 1%Q ->
  (forall j x, j <> k -> l !! j = Some x -> x = 0%Q) ->
  nonzeros l = 1.
Proof.
  induction l as [|y l IH]; intros k Hk H; [discriminate|].
  destruct k as [|k]; simpl.
  - injection Hk as ->. simpl. rewrite nonzeros_all_zero; [reflexivity|].
    intros j x Hj. apply (H (S j) x); [lia | exact Hj].
  - rewrite (H 0 y) by (lia || reflexivity). simpl.
    apply (IH k); [exact Hk|].
    intros j x Hne Hj. apply (H (S j) x); [lia | exact Hj].
Qed.

(** The [argmax] of a row is a position of the row that holds its largest
    entry. *)
Lemma argmax_row_spec B U d i :
  length d = B * U -> 0 < U -> i < B ->
  argmax_list (row U d i) < U /\
  forall j, j < U -> (entry U d i j <= entry U d i (argmax_list (row U d i)))%Q.
Proof.
  intros Hd HU Hi.
  assert (Hrow : length (row U d i) = U) by (eapply row_length; eassumption).
  destruct (argmax_list_spec (row U d i)) as (m & Hk & Hmax & _).
  { intros E. rewrite E in Hrow. simpl in Hrow. lia. }
  assert (HkU : argmax_list (row U d i) < U) by (apply lookup_lt_Some in Hk; lia).
  split; [exact HkU|]. intros j Hj.
  destruct (lookup_lt_is_Some_2 (row U d i) j) as [x Hx]; [lia|].
  rewrite (entry_lookup U d i j x) by (rewrite <- row_lookup by exact Hj; exact Hx).
  rewrite (entry_lookup U d i _ m) by (rewrite <- row_lookup by exact HkU; exact Hk).
  eapply Hmax, Hx.
Qed.

(** X15.  With the default step function, a row of the membrane in which some
    unit is strictly above its threshold gives exactly one spike, a 1 at
    the [argmax] of the row; a row in which no unit is gives none. *)
Theorem fire_inhibition_spike_count
    (self : LIF.obj) (mem : ref) (w : world) (tm tthr : tensor)
    (B U : nat) (d : list Q) :
  LIF.spike_grad self = LIF.Heaviside.apply ->
  tensors w !! mem = Some tm ->
  well_formed tm ->
  0 < U ->
  tensors w !! LIF.threshold self = Some tthr ->
  well_formed tthr ->
  binop Qminus tm tthr = Ok ([B; U], d) ->
  exists spk w' tspk,
    LIF.fire_inhibition self (Z.of_nat B) mem w = (Ok spk, w') /\
    tensors w' !! spk = Some tspk /\
    forall i, i < B ->
      ((exists j, j < U /\ (0 < entry U d i j)%Q) ->
       nonzeros (row U (data tspk) i) = 1 /\
       entry U (data tspk) i (argmax_list (row U d i)) = 1%Q) /\
      ((forall j, j < U -> (entry U d i j <= 0)%Q) ->
       nonzeros (row U (data tspk) i) = 0).
Proof.
  intros Hsg Hm Hwm HU Ht Hwt Hop.
  assert (Hd : length d = B * U).
  { rewrite (binop_length _ _ _ _ _ Hwm Hwt Hop). simpl. lia. }
  destruct (fire_inhibition_eq self mem w tm tthr B U d Hsg Hm Ht Hop Hd HU)
    as (w' & rg & gf & Hrun & Hlook).
  eexists _, w', _. split; [exact Hrun|]. split; [exact Hlook|].
  cbn [data].
  set (out := zip_with Qmult (map step d)
                (put_ones U (zip (seq 0 B) (map argmax_list (chunks U B d)))
                   (replicate (B * U) 0%Q))).
  assert (Hlen : length out = B * U).
  { unfold out. rewrite length_zip_with, length_map, put_ones_length,
      length_replicate. lia. }
  intros i Hi.
  destruct (argmax_row_spec B U d i Hd HU Hi) as [HkU Hmax].
  set (k := argmax_list (row U d i)) in *.
  assert (Hout : forall j, j < U ->
            entry U out i j = if j =? k then step (entry U d i j) else 0%Q).
  { intros j Hj. apply inhibited_entry; assumption. }
  assert (Hrowlen : length (row U out i) = U) by (eapply row_length; eassumption).
  assert (Hrow : forall j x, row U out i !! j = Some x -> j < U /\ entry U out i j = x).
  { intros j x Hx. assert (Hj : j < U) by (apply lookup_lt_Some in Hx; lia).
    split; [exact Hj|]. apply entry_lookup. rewrite <- row_lookup by exact Hj. exact Hx. }
  split.
  - intros (j & Hj & Hpos).
    assert (Hfire : step (entry U d i k) = 1%Q).
    { apply step_fires. eapply Qlt_le_trans; [exact Hpos | apply Hmax, Hj]. }
    assert (Hk1 : entry U out i k = 1%Q).
    { rewrite Hout by exact HkU. rewrite Nat.eqb_refl. exact Hfire. }
    split; [|exact Hk1].
    apply (nonzeros_exactly_one _ k).
    + destruct (lookup_lt_is_Some_2 (row U out i) k) as [x Hx]; [lia|].
      destruct (Hrow k x Hx) as [_ E]. rewrite Hx. f_equal. congruence.
    + intros j' x Hne Hx. destruct (Hrow j' x Hx) as [Hj' <-].
      rewrite Hout by exact Hj'. destruct (Nat.eqb_spec j' k); [contradiction|reflexivity].
  - intros Hnone. apply nonzeros_all_zero. intros j x Hx.
    destruct (Hrow j x Hx) as [Hj <-]. rewrite Hout by exact Hj.
    destruct (j =? k); [|reflexivity]. apply step_silent, Hnone, Hj.
Qed.

(** X15 on a concrete store. *)
Lemma fire_inhibition_spike_count_witness :
  let mem := mkTensor [2; 3] [1 # 10; 9 # 10; 9 # 10; -1; -1; -1]%Q
               false None None in
  let thr := mkTensor [] [0]%Q false None None in
  let w := mkWorld [mem; thr] [] [] 0 in
  let self := LIF.mkObj 0 false true "subtract" false 1 1 LIF.Heaviside.apply in
  exists spk w' tspk,
    LIF.fire_inhibition self 2 0 w = (Ok spk, w') /\
    tensors w' !! spk = Some tspk /\
    nonzeros (row 3 (data tspk) 0) = 1 /\
    nonzeros (row 3 (data tspk) 1) = 0.
Proof.
  intros mem thr w self.
  destruct (fire_inhibition_spike_count self 0 w mem thr 2 3
              [(1 # 10) - 0; (9 # 10) - 0; (9 # 10) - 0; -1 - 0; -1 - 0; -1 - 0]%Q
              eq_refl eq_refl eq_refl ltac:(lia) eq_refl eq_refl eq_refl)
    as (spk & w' & tspk & Hrun & Hl & Hrows).
  exists spk, w', tspk. split; [exact Hrun|]. split; [exact Hl|].
  destruct (Hrows 0 ltac:(lia)) as [H0 _].
  destruct (Hrows 1 ltac:(lia)) as [_ H1].
  split.
  - apply H0. exists 0. split; [lia | reflexivity].
  - apply H1. intros j Hj.
    destruct j as [|[|[|j]]]; [discriminate | discriminate | discriminate | lia].
Defined.

(** [fire_inhibition] up to the call of [torch.arange]: the store then
    holds the shifted membrane, the tentative spikes and the zero mask. *)
Lemma fire_inhibition_to_arange self batch_size mem w tm tthr B U d :
  LIF.spike_grad self = LIF.Heaviside.apply ->
  tensors w !! mem = Some tm ->
  tensors w !! LIF.threshold self = Some tthr ->
  binop Qminus tm tthr = Ok ([B; U], d) ->
  0 < U ->
  exists w3 mask0,
    LIF.fire_inhibition self batch_size mem w =
      (rows <- arange batch_size ;;
       index_put2 (length (tensors w) + 2) rows
         (map argmax_list (chunks U B d)) 1%Q ;;
       spk <- mul (length (tensors w) + 1) (length (tensors w) + 2) ;;
       ret spk) w3 /\
    tensors w3 !! (length (tensors w) + 2) = Some mask0 /\
    requires_grad mask0 = false /\ shape mask0 = [B; U] /\
    tensors_kept w w3.
Proof.
  intros Hsg Hm Ht Hop HU.
  set (shifted := sub_tensor mem (LIF.threshold self) tm tthr [B; U] d).
  set (w1 := set_tensors (tensors w ++ [shifted]) w).
  assert (H1 : tensors w1 !! length (tensors w) = Some shifted) by apply lookup_snoc.
  set (spk_tmp := spike_tensor (length (tensors w)) (length (ctxs w1)) shifted).
  set (w2 := mkWorld (tensors w1 ++ [spk_tmp])
               (ctxs w1 ++ [mkContext [length (tensors w1)]])
               (instances w1) (n_objects w1)).
  assert (H2 : tensors w2 !! length (tensors w1) = Some spk_tmp) by apply lookup_snoc.
  set (mask0 := mkTensor [B; U] (replicate (numel [B; U]) 0%Q) false None None).
  set (w3 := set_tensors (tensors w2 ++ [mask0]) w2).
  assert (E1 : length (tensors w1) = length (tensors w) + 1).
  { unfold w1. cbn [tensors set_tensors]. rewrite length_app. reflexivity. }
  assert (E2 : length (tensors w2) = length (tensors w) + 2).
  { unfold w2. cbn [tensors]. rewrite length_app, E1. simpl. lia. }
  exists w3, mask0. split; [|split; [|split; [|split]]].
  - unfold LIF.fire_inhibition. rewrite Hsg.
    rewrite (bind_ok _ _ _ _ _ (sub_eq _ _ _ _ _ _ _ Hm Ht Hop)).
    fold shifted. fold w1.
    rewrite (bind_ok _ _ _ _ _ (argmax_dim1_eq _ _ _ B U H1 eq_refl HU)).
    rewrite (bind_ok _ _ _ _ _ (Heaviside_apply_eq _ _ _ H1)).
    fold spk_tmp. fold w2.
    rewrite (bind_ok _ _ _ _ _ (zeros_like_eq _ false _ _ H2)).
    change (set_tensors _ w2) with w3.
    rewrite E1, E2. reflexivity.
  - rewrite <- E2. apply lookup_snoc.
  - reflexivity.
  - reflexivity.
  - intros r t Hr. unfold w3, w2, w1. cbn [tensors set_tensors].
    do 3 apply lookup_app_l_Some. exact Hr.
Qed.

Lemma index_put2_mismatch a rows cols v w ta B U :
  tensors w !! a = Some ta ->
  requires_grad ta = false ->
  shape ta = [B; U] ->
  length rows <> length cols -> length rows <> 1 -> length cols <> 1 ->
  index_put2 a rows cols v w = (Err IndexError, w).
Proof.
  intros Ha Hrg Hs H1 H2 H3. unfold index_put2.
  rewrite (bind_ok _ _ w ta w) by (apply read_ok, Ha).
  rewrite Hrg, Hs. unfold broadcast_index.
  destruct (Nat.eqb_spec (length rows) (length cols)); [contradiction|].
  destruct (Nat.eqb_spec (length rows) 1); [contradiction|].
  destruct (Nat.eqb_spec (length cols) 1); [contradiction|]. reflexivity.
Qed.

(** X16.  [fire_inhibition] needs the [batch_size] of its membrane: a negative
    one stops it in [torch.arange], and one that is neither the number of
    rows nor 1, on a membrane of several rows, stops it in the indexed
    assignment to the mask.  In both cases the call raises after the step
    function has run, and the tensors of the store are as they were. *)
Theorem fire_inhibition_rejects_batch_size
    (self : LIF.obj) (batch_size : Z) (mem : ref) (w : world)
    (tm tthr : tensor) (B U : nat) (d : list Q) :
  LIF.spike_grad self = LIF.Heaviside.apply ->
  tensors w !! mem = Some tm ->
  tensors w !! LIF.threshold self = Some tthr ->
  binop Qminus tm tthr = Ok ([B; U], d) ->
  0 < U ->
  ((batch_size < 0)%Z ->
   exists w', LIF.fire_inhibition self batch_size mem w = (Err RuntimeError, w') /\
              forall r t, tensors w !! r = Some t -> tensors w' !! r = Some t) /\
  ((0 <= batch_size)%Z -> batch_size <> Z.of_nat B -> batch_size <> 1%Z -> B <> 1 ->
   exists w', LIF.fire_inhibition self batch_size mem w = (Err IndexError, w') /\
              forall r t, tensors w !! r = Some t -> tensors w' !! r = Some t).
Proof.
  intros Hsg Hm Ht Hop HU.
  destruct (fire_inhibition_to_arange self batch_size mem w tm tthr B U d
              Hsg Hm Ht Hop HU) as (w3 & mask0 & Hrun & Hmask & Hrg & Hs & Hk).
  split.
  - intros Hneg. exists w3. split; [|exact Hk]. rewrite Hrun.
    unfold arange. destruct (Z.ltb_spec batch_size 0); [reflexivity | lia].
  - intros Hpos HB H1 HB1. exists w3. split; [|exact Hk]. rewrite Hrun.
    assert (Ea : arange batch_size w3 = (Ok (seq 0 (Z.to_nat batch_size)), w3)).
    { unfold arange. destruct (Z.ltb_spec batch_size 0); [lia | reflexivity]. }
    rewrite (bind_ok _ _ _ _ _ Ea).
    rewrite (bind_err _ _ _ IndexError w3); [reflexivity|].
    apply (index_put2_mismatch _ _ _ _ _ mask0 B U Hmask Hrg Hs).
    + rewrite length_seq, length_map, chunks_length. lia.
    + rewrite length_seq. lia.
    + rewrite length_map, chunks_length. exact HB1.
Qed.

(** X16 on a concrete store. *)
Lemma fire_inhibition_rejects_batch_size_witness :
  let mem := mkTensor [2; 3] [1 # 10; 9 # 10; -(2 # 10); -1; -1; -1]%Q
               false None None in
  let thr := mkTensor [] [0]%Q false None None in
  let w := mkWorld [mem; thr] [] [] 0 in
  let self := LIF.mkObj 0 false true "subtract" false 1 1 LIF.Heaviside.apply in
  (exists w', LIF.fire_inhibition self 3 0 w = (Err IndexError, w')) /\
  (exists w', LIF.fire_inhibition self (-1) 0 w = (Err RuntimeError, w')).
Proof.
  intros mem thr w self. split.
  - destruct (fire_inhibition_rejects_batch_size self 3 0 w mem thr 2 3
                [(1 # 10) - 0; (9 # 10) - 0; -(2 # 10) - 0; -1 - 0; -1 - 0; -1 - 0]%Q
                eq_refl eq_refl eq_refl eq_refl ltac:(lia)) as [_ H].
    destruct H as (w' & Hrun & _); [lia | lia | lia | lia |].
    exists w'. exact Hrun.
  - destruct (fire_inhibition_rejects_batch_size self (-1) 0 w mem thr 2 3
                [(1 # 10) - 0; (9 # 10) - 0; -(2 # 10) - 0; -1 - 0; -1 - 0; -1 - 0]%Q
                eq_refl eq_refl eq_refl eq_refl ltac:(lia)) as [H _].
    destruct H as (w' & Hrun & _); [lia|].
    exists w'. exact Hrun.
Defined.

(** X17.  Inhibition only removes spikes: run on the same store, [fire] and
    [fire_inhibition] return tensors of the same shape, and every entry of
    the inhibited tensor is the entry of [fire] or 0; it is the entry of
    [fire] at the [argmax] of its row. *)
Theorem fire_inhibition_below_fire
    (self : LIF.obj) (mem : ref) (w : world) (tm tthr : tensor)
    (B U : nat) (d : list Q) :
  LIF.spike_grad self = LIF.Heaviside.apply ->
  tensors w !! mem = Some tm ->
  well_formed tm ->
  0 < U ->
  tensors w !! LIF.threshold self = Some tthr ->
  well_formed tthr ->
  binop Qminus tm tthr = Ok ([B; U], d) ->
  exists spk w1 tspk inh w2 tinh,
    LIF.fire self mem w = (Ok spk, w1) /\
    tensors w1 !! spk = Some tspk /\
    LIF.fire_inhibition self (Z.of_nat B) mem w = (Ok inh, w2) /\
    tensors w2 !! inh = Some tinh /\
    shape tinh = shape tspk /\
    forall i j, i < B -> j < U ->
      (entry U (data tinh) i j = entry U (data tspk) i j \/
       entry U (data tinh) i j = 0%Q) /\
      (j = argmax_list (row U d i) ->
       entry U (data tinh) i j = entry U (data tspk) i j).
Proof.
  intros Hsg Hm Hwm HU Ht Hwt Hop.
  assert (Hd : length d = B * U).
  { rewrite (binop_length _ _ _ _ _ Hwm Hwt Hop). simpl. lia. }
  pose proof (fire_default_eq self mem w tm tthr _ _ Hsg Hm Ht Hop) as Hfire.
  cbv zeta in Hfire.
  destruct (fire_inhibition_eq self mem w tm tthr B U d Hsg Hm Ht Hop Hd HU)
    as (w2 & rg & gf & Hrun & Hlook).
  eexists _, _, _, _, w2, _. split; [exact Hfire|]. split.
  { cbn [tensors]. rewrite lookup_app_r by lia.
    rewrite Nat.sub_succ_l, Nat.sub_diag by lia. reflexivity. }
  split; [exact Hrun|]. split; [exact Hlook|]. split; [reflexivity|].
  intros i j Hi Hj. cbn [data spike_tensor sub_tensor].
  rewrite (inhibited_entry B U d i j Hd HU Hi Hj).
  assert (Hf : entry U (map step d) i j = step (entry U d i j)).
  { destruct (lookup_lt_is_Some_2 d (i * U + j)) as [x Hx]; [nia|].
    rewrite (entry_lookup U d i j x Hx). apply entry_lookup.
    rewrite list_lookup_fmap, Hx. reflexivity. }
  rewrite Hf. split.
  - destruct (j =? argmax_list (row U d i)); auto.
  - intros ->. rewrite Nat.eqb_refl. reflexivity.
Qed.

(** X17 on a concrete store. *)
Lemma fire_inhibition_below_fire_witness :
  let mem := mkTensor [1; 3] [1; 3; 2]%Q false None None in
  let thr := mkTensor [] [0]%Q false None None in
  let w := mkWorld [mem; thr] [] [] 0 in
  let self := LIF.mkObj 0 false true "subtract" false 1 1 LIF.Heaviside.apply in
  exists spk w1 tspk inh w2 tinh,
    LIF.fire self 0 w = (Ok spk, w1) /\
    tensors w1 !! spk = Some tspk /\
    LIF.fire_inhibition self 1 0 w = (Ok inh, w2) /\
    tensors w2 !! inh = Some tinh /\
    entry 3 (data tinh) 0 1 = entry 3 (data tspk) 0 1.
Proof.
  intros mem thr w self.
  destruct (fire_inhibition_below_fire self 0 w mem thr 1 3
              [1 - 0; 3 - 0; 2 - 0]%Q
              eq_refl eq_refl eq_refl ltac:(lia) eq_refl eq_refl eq_refl)
    as (spk & w1 & tspk & inh & w2 & tinh & Hf & Hl & Hi & Hli & _ & He).
  exists spk, w1, tspk, inh, w2, tinh.
  split; [exact Hf|]. split; [exact Hl|]. split; [exact Hi|]. split; [exact Hli|].
  apply (He 0 1); [lia | lia | reflexivity].
Defined.
